(** * Shannon-Fano coding: a model of [Algorithm_Fano/alg_fano.py]

    The class [FanoEncoder] of the source builds a binary code for the
    characters of a text by recursive bisection of the probability-sorted
    alphabet, and encodes and decodes the text with it.  This file embeds
    the class in Rocq and proves the properties of its specification.

    Conventions of the embedding:
    - a Python [str] is a [list ascii]; a code word is such a string over
      the characters ["0"] and ["1"];
    - a Python [int] is a [Z];
    - a Python [float] is a primitive binary64 [float] (round to nearest,
      ties to even, as in CPython); what is proved of its operations rests
      on their specification in [FloatAxioms];
    - a Python [dict] is an insertion-ordered association list: assigning
      to a present key replaces its value in place, assigning to a new key
      appends it;
    - Python exceptions are the [Raise] outcomes of the [result] monad;
    - the recursion of [_fano_recursive] is driven by a [fuel] counter, the
      number of frames the call may nest; the theorems show that the fuel
      [_build_codes] supplies is never exhausted;
    - the [verbose] printing of the source has no effect on the values
      computed and is left out. *)

From Stdlib Require Import ZArith Floats Uint63 Ascii String Sorted.
From stdpp Require Import base tactics option list strings.

Local Open Scope Z_scope.

(** ** Python values *)

(** [str]: a sequence of characters. *)
Abbreviation str := (list ascii).

(** The string literal ["..."] of the source. *)
Definition lit (s : string) : str := list_ascii_of_string s.

Inductive exn :=
  | KeyError
  | IndexError
  | ZeroDivisionError
  | RecursionError.

Inductive result (A : Type) :=
  | Ok (a : A)
  | Raise (e : exn).
Arguments Ok {A} a.
Arguments Raise {A} e.

#[global] Instance result_ret : MRet result := fun A a => Ok a.
#[global] Instance result_bind : MBind result := fun A B f m =>
  match m with
  | Ok a => f a
  | Raise e => Raise e
  end.

(** [for x in xs: st = body st x], where the body may raise. *)
Fixpoint for_each {A S : Type} (body : S -> A -> result S) (xs : list A) (st : S)
    : result S :=
  match xs with
  | [] => Ok st
  | x :: xs' => st' ← body st x; for_each body xs' st'
  end.

(** [range(b, e)]. *)
Definition range (b e : Z) : list Z := seqZ b (e - b).

(** [l[i]], with Python's negative indices and [IndexError]. *)
Definition py_index {A : Type} (l : list A) (i : Z) : result A :=
  let n := Z.of_nat (length l) in
  let j := if decide (i < 0) then i + n else i in
  if decide (0 <= j < n) then
    match l !! Z.to_nat j with
    | Some x => Ok x
    | None => Raise IndexError
    end
  else Raise IndexError.

(** Clipping of a slice bound, as [slice.indices] does it for step 1. *)
Definition slice_bound (n i : Z) : Z :=
  if decide (i < 0) then Z.max (i + n) 0 else Z.min i n.

(** [l[b:e]]. *)
Definition py_slice {A : Type} (l : list A) (b e : Z) : list A :=
  let n := Z.of_nat (length l) in
  let lo := slice_bound n b in
  let hi := slice_bound n e in
  take (Z.to_nat (hi - lo)) (drop (Z.to_nat lo) l).

(** ** Dictionaries *)

Definition dict (K V : Type) := list (K * V).

Section Dict.
Context {K V : Type} `{EqDecision K}.

(** [d.get(k)] *)
Fixpoint dict_get (d : dict K V) (k : K) : option V :=
  match d with
  | [] => None
  | (k', v) :: d' => if decide (k = k') then Some v else dict_get d' k
  end.

(** [k in d] *)
Definition dict_contains (d : dict K V) (k : K) : bool :=
  bool_decide (is_Some (dict_get d k)).

(** [d[k]] *)
Definition dict_getitem (d : dict K V) (k : K) : result V :=
  match dict_get d k with
  | Some v => Ok v
  | None => Raise KeyError
  end.

(** [d[k] = v] *)
Fixpoint dict_set (d : dict K V) (k : K) (v : V) : dict K V :=
  match d with
  | [] => [(k, v)]
  | (k', v') :: d' =>
      if decide (k = k') then (k', v) :: d' else (k', v') :: dict_set d' k v
  end.

(** [d.keys()] *)
Definition dict_keys (d : dict K V) : list K := d.*1.
End Dict.

(** ** Floating-point helpers *)

(** The conversion of a Python [int] to [float]; exact below [2^53]. *)
Definition float_of_int (z : Z) : float := PrimFloat.of_uint63 (Uint63.of_Z z).

(** [a / b] on integers.  CPython rounds the exact quotient once; the
    model divides the converted operands, which is the same as long as
    both are below [2^53]. *)
Definition int_truediv (a b : Z) : result float :=
  if decide (b = 0) then Raise ZeroDivisionError
  else Ok (float_of_int a / float_of_int b)%float.

(** The builtin [sum] on floats: left to right from [0].  (CPython 3.12
    and later also carry a compensation term for the rounding errors; the
    results on the structure of the code do not depend on the value of a
    sum, and the examples evaluated below come out the same.) *)
Definition sum (xs : list float) : float := fold_left PrimFloat.add xs 0%float.

(** ** Frequency analysis *)

(** [collections.Counter(text)]: one entry per distinct character, in the
    order of first occurrence. *)
Definition Counter (text : str) : dict ascii Z :=
  fold_left (fun d c => dict_set d c (default 0 (dict_get d c) + 1)) text [].

(** One insertion step of a stable sort by descending key. *)
Fixpoint insert_desc (x : ascii * float) (l : list (ascii * float))
    : list (ascii * float) :=
  match l with
  | [] => [x]
  | y :: l' => if (x.2 <? y.2)%float then y :: insert_desc x l' else x :: l
  end.

(** [probs.sort(key=lambda x: x[1], reverse=True)]: equal keys keep their
    original order. *)
Definition sort_desc (l : list (ascii * float)) : list (ascii * float) :=
  foldr insert_desc [] l.

Definition _calculate_probabilities (text : str) : result (list (ascii * float)) :=
  let counter := Counter text in
  let total := Z.of_nat (length text) in
  probs ← mapM (fun '(char, count) => p ← int_truediv count total; Ok (char, p))
               counter;
  Ok (sort_desc probs).

(** ** The split point *)

(** The body of the loop of [_med]; the state is
    [(left_sum, min_diff, best_m)]. *)
Definition med_body (probs : list (ascii * float)) (total_sum : float)
    (st : float * float * Z) (m : Z) : result (float * float * Z) :=
  let '(left_sum, min_diff, best_m) := st in
  pm ← py_index probs m;
  let left_sum := (left_sum + pm.2)%float in
  let right_sum := (total_sum - left_sum)%float in
  let diff := PrimFloat.abs (left_sum - right_sum) in
  if (diff <? min_diff)%float then Ok (left_sum, diff, m)
  else Ok (left_sum, min_diff, best_m).

Definition _med (probs : list (ascii * float)) (b e : Z) : result Z :=
  if decide (b >= e) then Ok b
  else
    let total_sum := sum (py_slice probs b (e + 1)).*2 in
    st ← for_each (med_body probs total_sum) (range b e)
                  (0%float, infinity, b);
    Ok st.2.

(** ** Code assignment *)

(** [for i in range(lo, hi): codes[probs[i][0]] = code] *)
Definition assign_range (probs : list (ascii * float)) (code : str)
    (lo hi : Z) (codes : dict ascii str) : result (dict ascii str) :=
  for_each (fun codes i => p ← py_index probs i; Ok (dict_set codes p.1 code))
           (range lo hi) codes.

Fixpoint _fano_recursive (fuel : nat) (probs : list (ascii * float))
    (codes : dict ascii str) (b e : Z) (current_code : str)
    : result (dict ascii str) :=
  match fuel with
  | O => Raise RecursionError
  | S fuel' =>
      if decide (e < b) then Ok codes
      else if decide (e = b) then
        p ← py_index probs b;
        Ok (dict_set codes p.1
              (match current_code with [] => lit "0" | _ => current_code end))
      else
        m ← _med probs b e;
        codes ← assign_range probs (current_code ++ lit "0") b (m + 1) codes;
        codes ← assign_range probs (current_code ++ lit "1") (m + 1) (e + 1) codes;
        codes ← _fano_recursive fuel' probs codes b m (current_code ++ lit "0");
        _fano_recursive fuel' probs codes (m + 1) e (current_code ++ lit "1")
  end.

(** The number of nested recursive calls below a call of
    [_fano_recursive]: [0] for a call that returns without recursing. *)
Fixpoint _fano_depth (fuel : nat) (probs : list (ascii * float)) (b e : Z)
    : result nat :=
  match fuel with
  | O => Raise RecursionError
  | S fuel' =>
      if decide (e < b) then Ok O
      else if decide (e = b) then _ ← py_index probs b; Ok O
      else
        m ← _med probs b e;
        dl ← _fano_depth fuel' probs b m;
        dr ← _fano_depth fuel' probs (m + 1) e;
        Ok (S (Nat.max dl dr))
  end.

(** ** The encoder object *)

Record FanoEncoder := {
  text : str;
  codes : dict ascii str;
  probabilities : dict ascii float
}.

(** The recursion budget [_build_codes] runs with: one call per symbol of
    the alphabet and one more for the outermost call. *)
Definition recursion_limit (probs : list (ascii * float)) : nat :=
  S (length probs).

(** [_build_codes], on the attributes [__init__] has just set. *)
Definition _build_codes (self : FanoEncoder) : result FanoEncoder :=
  probs ← _calculate_probabilities self.(text);
  let probabilities :=
    fold_left (fun d '(char, prob) => dict_set d char prob) probs
              self.(probabilities) in
  codes ← _fano_recursive (recursion_limit probs) probs self.(codes) 0
            (Z.of_nat (length probs) - 1) [];
  Ok {| text := self.(text); codes := codes; probabilities := probabilities |}.

(** [FanoEncoder(text)] *)
Definition __init__ (text : str) : result FanoEncoder :=
  _build_codes {| text := text; codes := []; probabilities := [] |}.

Definition encode (self : FanoEncoder) : result str :=
  words ← mapM (fun char => dict_getitem self.(codes) char) self.(text);
  Ok (concat words).

(** The body of the loop of [decode]; the state is
    [(decoded, current_code)]. *)
Definition decode_body (reverse_codes : dict str ascii)
    (st : list ascii * str) (bit : ascii) : result (list ascii * str) :=
  let '(decoded, current_code) := st in
  let current_code := current_code ++ [bit] in
  if dict_contains reverse_codes current_code then
    char ← dict_getitem reverse_codes current_code;
    Ok (decoded ++ [char], [])
  else Ok (decoded, current_code).

(** [{code: char for char, code in self.codes.items()}] *)
Definition reverse_of (codes : dict ascii str) : dict str ascii :=
  fold_left (fun d '(char, code) => dict_set d code char) codes [].

(** The loop of [decode], with the accumulator it ends with. *)
Definition decode_loop (self : FanoEncoder) (encoded : str)
    : result (list ascii * str) :=
  for_each (decode_body (reverse_of self.(codes))) encoded ([], []).

Definition decode (self : FanoEncoder) (encoded : str) : result str :=
  st ← decode_loop self encoded;
  Ok st.1.

(** The depth of the recursion [_build_codes] starts. *)
Definition build_depth (text : str) : result nat :=
  probs ← _calculate_probabilities text;
  _fano_depth (recursion_limit probs) probs 0 (Z.of_nat (length probs) - 1).

(** ** The comparison and the test harness *)

(** The histogram of code lengths of [compare_with_ascii]:
    [length_dist[length] = length_dist.get(length, 0) + 1] for every code
    word of [codes.values()]. *)
Definition length_dist (codes : dict ascii str) : dict Z Z :=
  fold_left (fun d code =>
               let length := Z.of_nat (length code) in
               dict_set d length (default 0 (dict_get d length) + 1))
            codes.*2 [].

(** The compression ratio of [compare_with_ascii], with what is
    evaluated before it (lines 202-216): [ascii_bits], [fano_bits], the
    average code length, whose lookups [probabilities[char]] can fail,
    and the quotient [fano_bits / ascii_bits].  The entropy of lines
    208-209 is not part of the model: it is computed with [math.log2],
    on the positive values of [probabilities] only, where it raises
    nothing, and it does not enter the ratio. *)
Definition compression_ratio (text encoded : str) (codes : dict ascii str)
    (probabilities : dict ascii float) : result float :=
  let ascii_bits := Z.of_nat (length text) * 8 in
  let fano_bits := Z.of_nat (length encoded) in
  terms ← mapM (fun char =>
                  p ← dict_getitem probabilities char;
                  code ← dict_getitem codes char;
                  Ok (p * float_of_int (Z.of_nat (length code)))%float)
               (dict_keys codes);
  let avg_code_length := sum terms in
  q ← int_truediv fano_bits ascii_bits;
  Ok ((1 - q) * 100)%float.


(** ** Vocabulary of the specification *)

(** A code word is written with the digits ["0"] and ["1"] only. *)
Definition binary (w : str) : Prop :=
  Forall (fun c => c = "0"%char \/ c = "1"%char) w.

(** No code word of two distinct symbols is a prefix of the other's. *)
Definition prefix_free (codes : dict ascii str) : Prop :=
  forall a b wa wb,
    dict_get codes a = Some wa -> dict_get codes b = Some wb -> a <> b ->
    ~ wa `prefix_of` wb.

(** The symbol [k] sits in the ranked list at an index of [[b, e]]. *)
Definition in_range (probs : list (ascii * float)) (b e : Z) (k : ascii) : Prop :=
  exists i p, b <= i <= e /\ probs !! Z.to_nat i = Some (k, p).

(** The number of distinct symbols of a sequence. *)
Definition alphabet_size (S : str) : nat := length (remove_dups S).

(** [S.count(c)] *)
Definition occurrences (c : ascii) (S : str) : Z :=
  Z.of_nat (length (filter (fun x => x = c) S)).

(** The distinct symbols of [S] in the order of their first occurrence. *)
Fixpoint first_occurrences (S : str) : list ascii :=
  match S with
  | [] => []
  | c :: S' => c :: filter (fun x => x <> c) (first_occurrences S')
  end.

(** The sum of a list of integers. *)
Definition Zsum (l : list Z) : Z := foldr Z.add 0 l.

(** The probability the code computes for the symbol [c] of [S]. *)
Definition probability_of (S : str) (c : ascii) : float :=
  (float_of_int (occurrences c S) / float_of_int (Z.of_nat (length S)))%float.

(** Sorted by descending probability. *)
Definition descending (l : list (ascii * float)) : Prop :=
  StronglySorted (fun x y => (y.2 <=? x.2)%float = true) l.

(** The probability mass of the inclusive index range [[i, j]], summed
    left to right in binary64. *)
Definition mass (probs : list (ascii * float)) (i j : Z) : float :=
  sum (py_slice probs i (j + 1)).*2.

(** The difference [_med] computes for the split after index [m], given
    the total it has computed for the range: the right mass is obtained by
    subtracting the left mass from the total. *)
Definition computed_diff (probs : list (ascii * float)) (total_sum : float)
    (b m : Z) : float :=
  let left_sum := mass probs b m in
  let right_sum := (total_sum - left_sum)%float in
  PrimFloat.abs (left_sum - right_sum).

(** The difference between the mass of [[b, m]] and the mass of
    [[m + 1, e]], each summed on its own. *)
Definition mass_diff (probs : list (ascii * float)) (b e m : Z) : float :=
  PrimFloat.abs (mass probs b m - mass probs (m + 1) e).

(** [m] is the first index of [[b, e)] at which [diff] is least: no index
    does strictly better, and no earlier index does as well. *)
Definition first_minimum (diff : Z -> float) (b e m : Z) : Prop :=
  b <= m < e /\
  (forall m', b <= m' < e -> (diff m' <? diff m)%float = false) /\
  (forall m', b <= m' < m -> (diff m' <=? diff m)%float = false).

(** The text of 49 distinct symbols behind the counterexample to C8. *)
Definition text49 : str :=
  lit "0123456789ABCDEFGHIJKLMNOPQRSTUVWXYZabcdefghijklm".

(** ** Auxiliary definitions of the proofs *)

(** The list the sort of [_calculate_probabilities] is applied to. *)
Definition raw_probs (text : str) : list (ascii * float) :=
  (fun '(char, count) =>
     (char, (float_of_int count / float_of_int (Z.of_nat (length text)))%float))
  <$> Counter text.

(** What a run of assignments to the symbols of an index range leaves in
    the dictionary, whatever the values assigned. *)
Definition marks (probs : list (ascii * float)) (b e : Z)
    (codes codes' : dict ascii str) : Prop :=
  (NoDup (dict_keys codes) -> NoDup (dict_keys codes')) /\
  (forall k, k ∈ dict_keys codes' <-> k ∈ dict_keys codes \/ in_range probs b e k) /\
  (forall k, ~ in_range probs b e k -> dict_get codes' k = dict_get codes k).

(** The code words of the symbols of [[b, e]] after the call
    [_fano_recursive(probs, codes, b, e, current_code)]: each extends
    [current_code] by binary digits, and no two are prefixes of each
    other. *)
Definition coded (probs : list (ascii * float)) (b e : Z) (current_code : str)
    (codes' : dict ascii str) : Prop :=
  (forall k, in_range probs b e k ->
     exists s, dict_get codes' k = Some (current_code ++ s) /\ binary s /\
               (s = [] -> b = e /\ current_code <> [])) /\
  (forall k1 k2 w1 w2,
     in_range probs b e k1 -> in_range probs b e k2 -> k1 <> k2 ->
     dict_get codes' k1 = Some w1 -> dict_get codes' k2 = Some w2 ->
     ~ w1 `prefix_of` w2).

(** A code table for the alphabet of [text]: one entry per distinct
    character, non-empty binary code words, none a prefix of another. *)
Definition table_for (text : str) (codes : dict ascii str) : Prop :=
  NoDup (dict_keys codes) /\
  (forall c, c ∈ dict_keys codes <-> c ∈ text) /\
  (forall c w, dict_get codes c = Some w -> w <> [] /\ binary w) /\
  prefix_free codes.

(** The invariant of the loop of [_med] before index [k]; it holds
    whatever the value of [total_sum]. *)
Definition med_inv (probs : list (ascii * float)) (total_sum : float) (b k : Z)
    (st : float * float * Z) : Prop :=
  let diff := computed_diff probs total_sum b in
  let '(left_sum, min_diff, best_m) := st in
  left_sum = mass probs b (k - 1) /\
  (forall m', b <= m' < k -> (diff m' <? min_diff)%float = false) /\
  ((min_diff = diff best_m /\ b <= best_m < k /\
    forall m', b <= m' < best_m -> (diff m' <=? diff best_m)%float = false)
   \/ (min_diff = infinity /\ best_m = b)).

(** A key whose lexicographic order is the order [SFcompare] decides on
    the numbers that are not NaN. *)
Definition SFkey (x : spec_float) : Z * Z * Z :=
  match x with
  | S754_zero _ => (0, 0, 0)
  | S754_nan => (0, 0, 0)
  | S754_infinity false => (2, 0, 0)
  | S754_infinity true => (-2, 0, 0)
  | S754_finite false m e => (1, e, Z.pos m)
  | S754_finite true m e => (-1, - e, Z.neg m)
  end.

Definition key_lt (a b : Z * Z * Z) : Prop :=
  a.1.1 < b.1.1 \/
  (a.1.1 = b.1.1 /\ (a.1.2 < b.1.2 \/ (a.1.2 = b.1.2 /\ a.2 < b.2))).

Definition key_eq (a b : Z * Z * Z) : Prop :=
  a.1.1 = b.1.1 /\ a.1.2 = b.1.2 /\ a.2 = b.2.

(** The last stage of [binary_round_aux]: a mantissa that rounding has
    carried to [2^53] is renormalised. *)
Definition finish (mrs_e : shr_record * Z) : spec_float :=
  let '(mrs, e) := mrs_e in
  match shr_m mrs with
  | Z0 => S754_zero false
  | Zpos m => if e <=? emax - prec then S754_finite false m e else S754_infinity false
  | Zneg _ => S754_nan
  end.

(** The code words [_fano_recursive] leaves for the symbols of [[b, e]],
    in index order: the recursion of the source without the dictionary. *)
Fixpoint fano_words (fuel : nat) (probs : list (ascii * float)) (b e : Z)
    (current_code : str) : result (list str) :=
  match fuel with
  | O => Raise RecursionError
  | S fuel' =>
      if decide (e < b) then Ok []
      else if decide (e = b) then
        Ok [match current_code with [] => lit "0" | _ => current_code end]
      else
        m ← _med probs b e;
        l ← fano_words fuel' probs b m (current_code ++ lit "0");
        r ← fano_words fuel' probs (m + 1) e (current_code ++ lit "1");
        Ok (l ++ r)
  end.

(** * Proofs *)

Arguments lit : simpl never.
Arguments py_index : simpl never.
Arguments _med : simpl never.
Arguments assign_range : simpl never.
Arguments decode_body : simpl never.

(** ** The [result] monad *)

Lemma bind_Ok {A B : Type} (m : result A) (f : A -> result B) (b : B) :
  m ≫= f = Ok b <-> exists a, m = Ok a /\ f a = Ok b.
Proof.
  destruct m as [a|e]; simpl.
  - split; [eauto|]. by intros (a' & [= ->] & ?).
  - split; [done|]. by intros (a' & ? & ?).
Qed.

Ltac inv_bind H :=
  let a := fresh "a" in
  let Ha := fresh "Ha" in
  apply bind_Ok in H as (a & Ha & H).

Lemma mapM_Ok_inv {A B : Type} (f : A -> result B) l k :
  mapM f l = Ok k <-> Forall2 (fun a b => f a = Ok b) l k.
Proof.
  revert k. induction l as [|a l IH]; intros k; simpl.
  - split; [intros [= <-]; constructor | by inversion 1].
  - split.
    + intros H. inv_bind H. inv_bind H. injection H as <-.
      constructor; [done|]. by apply IH.
    + inversion 1 as [|? b ? k' Hb Hk]; subst.
      rewrite Hb. simpl. apply IH in Hk. rewrite Hk. done.
Qed.

(** ** Ranges and indexing *)

Lemma range_nil b e : e <= b -> range b e = [].
Proof. intros. unfold range. apply seqZ_nil. lia. Qed.

Lemma range_cons b e : b < e -> range b e = b :: range (b + 1) e.
Proof.
  intros. unfold range. rewrite seqZ_cons by lia.
  f_equal. f_equal; lia.
Qed.

Lemma py_index_Ok {A : Type} (l : list A) (i : Z) :
  0 <= i < Z.of_nat (length l) ->
  exists x, py_index l i = Ok x /\ l !! Z.to_nat i = Some x.
Proof.
  intros Hi. unfold py_index.
  rewrite (decide_False (P := i < 0)) by lia. rewrite decide_True by lia.
  destruct (lookup_lt_is_Some_2 l (Z.to_nat i)) as [x Hx]; [lia|].
  rewrite Hx. eauto.
Qed.

(** ** Dictionaries *)

Section DictFacts.
Context {K V : Type} `{EqDecision K}.
Implicit Types (d : dict K V) (k : K) (v : V).

Lemma dict_get_set_eq d k v : dict_get (dict_set d k v) k = Some v.
Proof.
  induction d as [|[k' v'] d IH]; simpl.
  - by rewrite decide_True.
  - destruct (decide (k = k')) as [->|Hne]; simpl.
    + by rewrite decide_True.
    + by rewrite decide_False.
Qed.

Lemma dict_get_set_ne d k k' v :
  k <> k' -> dict_get (dict_set d k v) k' = dict_get d k'.
Proof.
  intros Hne. induction d as [|[k0 v0] d IH]; simpl.
  - by rewrite decide_False.
  - destruct (decide (k = k0)) as [->|Hne0]; simpl.
    + by rewrite !decide_False by done.
    + destruct (decide (k' = k0)); done.
Qed.

Lemma dict_get_None d k : dict_get d k = None <-> k ∉ dict_keys d.
Proof.
  unfold dict_keys. induction d as [|[k' v'] d IH]; simpl.
  - split; [intros _; apply not_elem_of_nil | done].
  - rewrite not_elem_of_cons. destruct (decide (k = k')); [|tauto].
    split; [done | tauto].
Qed.

Lemma dict_get_is_Some d k : is_Some (dict_get d k) <-> k ∈ dict_keys d.
Proof.
  rewrite <- not_eq_None_Some, dict_get_None.
  destruct (decide (k ∈ dict_keys d)); naive_solver.
Qed.

Lemma dict_get_elem_of d k v : dict_get d k = Some v -> (k, v) ∈ d.
Proof.
  induction d as [|[k' v'] d IH]; simpl; [done|].
  destruct (decide (k = k')) as [->|].
  - intros [= ->]. left.
  - intros. right. auto.
Qed.

Lemma elem_of_dict_get d k v :
  NoDup (dict_keys d) -> (k, v) ∈ d -> dict_get d k = Some v.
Proof.
  unfold dict_keys. induction d as [|[k' v'] d IH]; simpl.
  - intros _ H. by apply elem_of_nil in H.
  - rewrite NoDup_cons. intros [Hk' Hd] Hin.
    apply elem_of_cons in Hin as [[= -> ->]|Hin].
    + by rewrite decide_True.
    + rewrite decide_False; [auto|]. intros ->. apply Hk'.
      apply list_elem_of_fmap. by exists (k', v).
Qed.

Lemma dict_keys_set d k v :
  dict_keys (dict_set d k v) =
  if decide (k ∈ dict_keys d) then dict_keys d else dict_keys d ++ [k].
Proof.
  unfold dict_keys. induction d as [|[k' v'] d IH]; [done|].
  cbn [dict_set]. destruct (decide (k = k')) as [->|Hne].
  - rewrite decide_True; [done | left].
  - rewrite !fmap_cons, IH. cbn [fst]. destruct (decide (k ∈ d.*1)).
    + rewrite decide_True; [done | by right].
    + rewrite decide_False; [done|]. rewrite not_elem_of_cons. done.
Qed.

Lemma elem_of_dict_keys_set d k v k' :
  k' ∈ dict_keys (dict_set d k v) <-> k' = k \/ k' ∈ dict_keys d.
Proof.
  rewrite dict_keys_set. case_decide as Hk.
  - split; [tauto|]. intros [->|?]; done.
  - rewrite elem_of_app, list_elem_of_singleton. tauto.
Qed.

Lemma NoDup_dict_keys_set d k v :
  NoDup (dict_keys d) -> NoDup (dict_keys (dict_set d k v)).
Proof.
  intros Hd. rewrite dict_keys_set. case_decide; [done|].
  apply NoDup_app. split_and!; [done| |apply NoDup_singleton].
  intros x Hx. rewrite list_elem_of_singleton. by intros ->.
Qed.
End DictFacts.

(** ** Frequency analysis *)

Lemma Counter_step_keys (d : dict ascii Z) (text : str) :
  let d' := fold_left (fun d c => dict_set d c (default 0 (dict_get d c) + 1)) text d in
  (NoDup (dict_keys d) -> NoDup (dict_keys d')) /\
  (forall c, c ∈ dict_keys d' <-> c ∈ dict_keys d \/ c ∈ text).
Proof.
  revert d. induction text as [|x text IH]; intros d; simpl.
  - split; [done|]. intros c. rewrite elem_of_nil. tauto.
  - destruct (IH (dict_set d x (default 0 (dict_get d x) + 1))) as [IH1 IH2].
    split.
    + intros Hd. apply IH1. by apply NoDup_dict_keys_set.
    + intros c. rewrite IH2, elem_of_dict_keys_set, elem_of_cons. tauto.
Qed.

Lemma NoDup_Counter (text : str) : NoDup (dict_keys (Counter text)).
Proof. apply (Counter_step_keys [] text). constructor. Qed.

Lemma elem_of_Counter (text : str) (c : ascii) :
  c ∈ dict_keys (Counter text) <-> c ∈ text.
Proof.
  unfold Counter. rewrite (proj2 (Counter_step_keys [] text)).
  unfold dict_keys. simpl. rewrite elem_of_nil. tauto.
Qed.

Lemma _calculate_probabilities_Ok (text : str) :
  _calculate_probabilities text = Ok (sort_desc (raw_probs text)).
Proof.
  unfold _calculate_probabilities.
  assert (mapM (fun '(char, count) =>
            p ← int_truediv count (Z.of_nat (length text)); Ok (char, p))
            (Counter text) = Ok (raw_probs text)) as ->; [|done].
  apply mapM_Ok_inv. unfold raw_probs. apply Forall2_fmap_r, Forall_Forall2_diag.
  apply Forall_forall. intros [c n] Hin. unfold int_truediv.
  rewrite decide_False; [done|].
  intros Hlen. destruct text; [|done].
  by apply elem_of_nil in Hin.
Qed.

Lemma insert_desc_Permutation x l : insert_desc x l ≡ₚ x :: l.
Proof.
  induction l as [|y l IH]; simpl; [done|].
  destruct (x.2 <? y.2)%float; [|done].
  rewrite IH. apply Permutation_swap.
Qed.

Lemma sort_desc_Permutation l : sort_desc l ≡ₚ l.
Proof.
  induction l as [|x l IH]; simpl; [done|].
  by rewrite insert_desc_Permutation, IH.
Qed.

Lemma raw_probs_keys (text : str) : (raw_probs text).*1 = dict_keys (Counter text).
Proof.
  unfold raw_probs, dict_keys. rewrite <- list_fmap_compose.
  apply list_fmap_ext. by intros _ [c n] _.
Qed.

Lemma ranked_keys_Permutation (text : str) :
  (sort_desc (raw_probs text)).*1 ≡ₚ dict_keys (Counter text).
Proof. by rewrite sort_desc_Permutation, raw_probs_keys. Qed.

Lemma NoDup_ranked_keys (text : str) : NoDup (sort_desc (raw_probs text)).*1.
Proof. rewrite ranked_keys_Permutation. apply NoDup_Counter. Qed.

Lemma elem_of_ranked_keys (text : str) (c : ascii) :
  c ∈ (sort_desc (raw_probs text)).*1 <-> c ∈ text.
Proof. by rewrite ranked_keys_Permutation, elem_of_Counter. Qed.

(** ** The split point stays inside the range *)

Lemma med_body_Ok probs total_sum st m :
  0 <= m < Z.of_nat (length probs) ->
  exists st', med_body probs total_sum st m = Ok st' /\
    (st'.2 = st.2 \/ st'.2 = m).
Proof.
  intros Hm. destruct st as [[left_sum min_diff] best_m].
  unfold med_body. destruct (py_index_Ok probs m Hm) as (pm & -> & _). simpl.
  match goal with |- context [if ?c then _ else _] => destruct c end; eauto.
Qed.

Lemma med_loop_Ok probs total_sum (n : nat) : forall lo e st,
  Z.to_nat (e - lo) = n -> 0 <= lo -> e <= Z.of_nat (length probs) ->
  exists st', for_each (med_body probs total_sum) (range lo e) st = Ok st' /\
    (st'.2 = st.2 \/ lo <= st'.2 < e).
Proof.
  induction n as [|n IH]; intros lo e st Hn Hlo He.
  - rewrite range_nil by lia. simpl. eauto.
  - rewrite range_cons by lia. simpl.
    destruct (med_body_Ok probs total_sum st lo) as (st1 & -> & Hst1); [lia|].
    simpl. destruct (IH (lo + 1) e st1) as (st' & -> & Hst'); [lia..|].
    exists st'. split; [done|]. destruct Hst' as [->|?]; [|lia].
    destruct Hst1 as [->| ->]; [by left | right; lia].
Qed.

Lemma _med_degenerate probs b e : e <= b -> _med probs b e = Ok b.
Proof. intros. unfold _med. by rewrite decide_True by lia. Qed.

Lemma _med_in_range probs b e :
  0 <= b -> b < e -> e < Z.of_nat (length probs) ->
  exists m, _med probs b e = Ok m /\ b <= m < e.
Proof.
  intros Hb Hbe He. unfold _med. rewrite decide_False by lia.
  edestruct (med_loop_Ok probs) as (st' & -> & Hst'); [done|exact Hb|lia|].
  simpl. eexists; split; [done|]. simpl in Hst'. lia.
Qed.

(** ** Symbols of an index range *)

Lemma in_range_split probs b m e k :
  b <= m -> m <= e ->
  in_range probs b e k <-> in_range probs b m k \/ in_range probs (m + 1) e k.
Proof.
  intros Hbm Hme. unfold in_range. split.
  - intros (i & p & Hi & Hp). destruct (decide (i <= m)).
    + left. exists i, p. split; [lia | done].
    + right. exists i, p. split; [lia | done].
  - intros [(i & p & Hi & Hp)|(i & p & Hi & Hp)]; exists i, p; split; (lia || done).
Qed.

Lemma in_range_disjoint probs b m e k :
  NoDup probs.*1 -> 0 <= b ->
  in_range probs b m k -> in_range probs (m + 1) e k -> False.
Proof.
  intros Hnd Hb (i & p & Hi & Hp) (j & q & Hj & Hq).
  assert (Z.to_nat i = Z.to_nat j) as Heq; [|lia].
  apply (NoDup_lookup probs.*1 _ _ k Hnd); rewrite list_lookup_fmap.
  - by rewrite Hp.
  - by rewrite Hq.
Qed.

Lemma in_range_single probs b k :
  in_range probs b b k <-> exists p, probs !! Z.to_nat b = Some (k, p).
Proof.
  unfold in_range. split.
  - intros (i & p & Hi & Hp). assert (i = b) as -> by lia. eauto.
  - intros (p & Hp). exists b, p. split; [lia | done].
Qed.

Lemma in_range_empty probs b e k : e < b -> ~ in_range probs b e k.
Proof. intros Heb (i & p & Hi & _). lia. Qed.

Lemma in_range_elem_of probs b e k : in_range probs b e k -> k ∈ probs.*1.
Proof.
  intros (i & p & _ & Hp). apply list_elem_of_fmap. exists (k, p).
  split; [done|]. by eapply list_elem_of_lookup_2.
Qed.

Lemma elem_of_in_range probs k :
  k ∈ probs.*1 -> in_range probs 0 (Z.of_nat (length probs) - 1) k.
Proof.
  intros Hk. apply list_elem_of_fmap in Hk as ([k' p] & -> & Hin).
  apply list_elem_of_lookup in Hin as (i & Hi).
  exists (Z.of_nat i), p. rewrite Nat2Z.id. split; [|done].
  apply lookup_lt_Some in Hi. lia.
Qed.

(** ** The marking loops *)

Lemma marks_empty probs b e codes : e < b -> marks probs b e codes codes.
Proof.
  intros Heb. split_and!; [done| |done].
  intros k. pose proof (in_range_empty probs b e k Heb). tauto.
Qed.

Lemma marks_single probs b k p codes w :
  probs !! Z.to_nat b = Some (k, p) ->
  marks probs b b codes (dict_set codes k w).
Proof.
  intros Hb. split_and!.
  - apply NoDup_dict_keys_set.
  - intros k'. rewrite elem_of_dict_keys_set, in_range_single.
    split.
    + intros [->|?]; [right; eauto | by left].
    + intros [?|[p' Hp']]; [by right | left; congruence].
  - intros k' Hk'. apply dict_get_set_ne. intros <-.
    apply Hk', in_range_single. eauto.
Qed.

Lemma marks_join probs b m e codes codes1 codes2 :
  b <= m -> m <= e ->
  marks probs b m codes codes1 -> marks probs (m + 1) e codes1 codes2 ->
  marks probs b e codes codes2.
Proof.
  intros Hbm Hme (Hn1 & Hk1 & Hf1) (Hn2 & Hk2 & Hf2). split_and!.
  - auto.
  - intros k. rewrite Hk2, Hk1, (in_range_split probs b m e) by done. tauto.
  - intros k Hk. rewrite (in_range_split probs b m e) in Hk by done.
    rewrite Hf2, Hf1; tauto.
Qed.

Lemma marks_again probs b e codes codes1 codes2 :
  marks probs b e codes codes1 -> marks probs b e codes1 codes2 ->
  marks probs b e codes codes2.
Proof.
  intros (Hn1 & Hk1 & Hf1) (Hn2 & Hk2 & Hf2). split_and!.
  - auto.
  - intros k. rewrite Hk2, Hk1. tauto.
  - intros k Hk. rewrite Hf2, Hf1; tauto.
Qed.

Lemma assign_range_marks probs code (n : nat) : forall lo hi codes,
  Z.to_nat (hi - lo) = n -> 0 <= lo -> hi <= Z.of_nat (length probs) ->
  exists codes', assign_range probs code lo hi codes = Ok codes' /\
    marks probs lo (hi - 1) codes codes'.
Proof.
  unfold assign_range.
  induction n as [|n IH]; intros lo hi codes Hn Hlo Hhi.
  - rewrite range_nil by lia. simpl. eexists; split; [done|].
    apply marks_empty. lia.
  - rewrite range_cons by lia. simpl.
    destruct (py_index_Ok probs lo) as ([k p] & -> & Hk); [lia|]. simpl.
    destruct (IH (lo + 1) hi (dict_set codes k code)) as (codes' & -> & Hm);
      [lia..|].
    eexists; split; [done|].
    eapply (marks_join probs lo lo); [lia|lia| |done].
    by eapply marks_single.
Qed.

(** ** The recursive procedure *)

Lemma diverge_01 (cc s1 s2 : str) :
  ~ ((cc ++ lit "0") ++ s1) `prefix_of` ((cc ++ lit "1") ++ s2).
Proof.
  rewrite <- !(assoc_L (++)). intros H%prefix_app_inv.
  by apply prefix_cons_inv_1 in H.
Qed.

Lemma diverge_10 (cc s1 s2 : str) :
  ~ ((cc ++ lit "1") ++ s1) `prefix_of` ((cc ++ lit "0") ++ s2).
Proof.
  rewrite <- !(assoc_L (++)). intros H%prefix_app_inv.
  by apply prefix_cons_inv_1 in H.
Qed.

Lemma binary_cons_0 s : binary s -> binary (lit "0" ++ s).
Proof. intros. constructor; [by left | done]. Qed.

Lemma binary_cons_1 s : binary s -> binary (lit "1" ++ s).
Proof. intros. constructor; [by right | done]. Qed.

Lemma coded_leaf probs b k p cc codes :
  probs !! Z.to_nat b = Some (k, p) ->
  coded probs b b cc
    (dict_set codes k (match cc with [] => lit "0" | _ => cc end)).
Proof.
  intros Hb.
  assert (forall k', in_range probs b b k' -> k' = k) as Hk.
  { intros k' (p' & Hp')%in_range_single. congruence. }
  split.
  - intros k' ->%Hk. rewrite dict_get_set_eq. destruct cc as [|c cc].
    + exists (lit "0"). split_and!; [done| |done].
      apply (binary_cons_0 []). constructor.
    + exists []. rewrite (right_id_L [] (++)). split_and!; [done|constructor|done].
  - intros k1 k2 w1 w2 ->%Hk ->%Hk. done.
Qed.

Lemma coded_join probs b m e cc codes3 codes4 :
  NoDup probs.*1 -> 0 <= b -> b <= m -> m < e ->
  coded probs b m (cc ++ lit "0") codes3 ->
  marks probs (m + 1) e codes3 codes4 ->
  coded probs (m + 1) e (cc ++ lit "1") codes4 ->
  coded probs b e cc codes4.
Proof.
  intros Hnd Hb Hbm Hme [Hw3 Hp3] (_ & _ & Hf4) [Hw4 Hp4].
  assert (forall k, in_range probs b m k -> dict_get codes4 k = dict_get codes3 k)
    as Hleft.
  { intros k Hk. apply Hf4. intros Hk'. by eapply in_range_disjoint. }
  assert (forall k, in_range probs b m k ->
            exists s, dict_get codes4 k = Some ((cc ++ lit "0") ++ s) /\ binary s)
    as HwL.
  { intros k Hk. destruct (Hw3 k Hk) as (s & Hs & Hbin & _).
    exists s. by rewrite Hleft. }
  assert (forall k, in_range probs (m + 1) e k ->
            exists s, dict_get codes4 k = Some ((cc ++ lit "1") ++ s) /\ binary s)
    as HwR.
  { intros k Hk. destruct (Hw4 k Hk) as (s & Hs & Hbin & _). eauto. }
  split.
  - intros k [Hk|Hk]%(in_range_split probs b m e); [| |lia..].
    + destruct (HwL k Hk) as (s & Hs & Hbin).
      exists (lit "0" ++ s). rewrite (assoc_L (++)).
      split_and!; [done | by apply binary_cons_0 | done].
    + destruct (HwR k Hk) as (s & Hs & Hbin).
      exists (lit "1" ++ s). rewrite (assoc_L (++)).
      split_and!; [done | by apply binary_cons_1 | done].
  - intros k1 k2 w1 w2 [H1|H1]%(in_range_split probs b m e)
      [H2|H2]%(in_range_split probs b m e) Hne Hg1 Hg2; try lia.
    + rewrite (Hleft k1 H1) in Hg1. rewrite (Hleft k2 H2) in Hg2.
      by apply (Hp3 k1 k2).
    + destruct (HwL k1 H1) as (s1 & Hs1 & _), (HwR k2 H2) as (s2 & Hs2 & _).
      simplify_eq. apply diverge_01.
    + destruct (HwR k1 H1) as (s1 & Hs1 & _), (HwL k2 H2) as (s2 & Hs2 & _).
      simplify_eq. apply diverge_10.
    + by apply (Hp4 k1 k2).
Qed.

Lemma _fano_recursive_spec (fuel : nat) : forall probs codes b e cc,
  NoDup probs.*1 -> 0 <= b -> e < Z.of_nat (length probs) ->
  (0 < fuel)%nat -> e - b < Z.of_nat fuel ->
  exists codes', _fano_recursive fuel probs codes b e cc = Ok codes' /\
    marks probs b e codes codes' /\ coded probs b e cc codes'.
Proof.
  induction fuel as [|fuel IH]; intros probs codes b e cc Hnd Hb He Hpos Hfuel;
    [lia|].
  simpl. destruct (decide (e < b)) as [Heb|Heb].
  { eexists; split_and!; [done | by apply marks_empty |].
    split.
    - intros k Hk. by apply in_range_empty in Hk.
    - intros k1 k2 w1 w2 Hk. by apply in_range_empty in Hk. }
  destruct (decide (e = b)) as [->|Hne].
  { destruct (py_index_Ok probs b) as ([k p] & -> & Hk); [lia|]. simpl.
    eexists; split_and!; [done | by eapply marks_single | by eapply coded_leaf]. }
  destruct (_med_in_range probs b e) as (m & -> & Hm); [lia..|]. simpl.
  destruct (assign_range_marks probs (cc ++ lit "0") _ b (m + 1) codes eq_refl)
    as (codes1 & -> & Hm1); [lia..|]. simpl.
  destruct (assign_range_marks probs (cc ++ lit "1") _ (m + 1) (e + 1) codes1 eq_refl)
    as (codes2 & -> & Hm2); [lia..|]. simpl.
  replace (m + 1 - 1) with m in Hm1 by lia.
  replace (e + 1 - 1) with e in Hm2 by lia.
  destruct (IH probs codes2 b m (cc ++ lit "0")) as (codes3 & -> & Hm3 & Hc3);
    [done|lia..|]. simpl.
  destruct (IH probs codes3 (m + 1) e (cc ++ lit "1")) as (codes4 & -> & Hm4 & Hc4);
    [done|lia..|].
  eexists; split_and!; [done| |].
  - eapply marks_again.
    + eapply (marks_join probs b m e); [lia|lia|exact Hm1|exact Hm2].
    + eapply (marks_join probs b m e); [lia|lia|exact Hm3|exact Hm4].
  - eapply (coded_join probs b m e); eauto; lia.
Qed.

(** ** The table [_build_codes] produces *)

Lemma _build_codes_Ok (txt : str) :
  exists codes,
    __init__ txt =
      Ok {| text := txt; codes := codes;
            probabilities :=
              fold_left (fun d '(char, prob) => dict_set d char prob)
                        (sort_desc (raw_probs txt)) [] |} /\
    table_for txt codes.
Proof.
  unfold __init__, _build_codes. cbn [text codes probabilities].
  rewrite _calculate_probabilities_Ok. cbn [mbind result_bind].
  set (probs := sort_desc (raw_probs txt)).
  assert (NoDup probs.*1) as Hnd by apply NoDup_ranked_keys.
  destruct (_fano_recursive_spec (recursion_limit probs) probs [] 0
              (Z.of_nat (length probs) - 1) []) as (codes & -> & Hm & Hw & Hp);
    [done | lia | lia | unfold recursion_limit; lia
    | unfold recursion_limit; lia |].
  exists codes. split; [done|].
  destruct Hm as (Hn & Hk & _).
  assert (forall c, c ∈ dict_keys codes <->
            in_range probs 0 (Z.of_nat (length probs) - 1) c) as Hkeys.
  { intros c. rewrite Hk. unfold dict_keys at 1. simpl. rewrite elem_of_nil. tauto. }
  split_and!.
  - apply Hn. constructor.
  - intros c. rewrite Hkeys, <- (elem_of_ranked_keys txt c). fold probs.
    split; [apply in_range_elem_of | apply elem_of_in_range].
  - intros c w Hc.
    assert (c ∈ dict_keys codes) as Hin%Hkeys by (apply dict_get_is_Some; eauto).
    destruct (Hw c Hin) as (s & Hs & Hbin & Hnil).
    rewrite Hs in Hc. injection Hc as <-. simpl. split; [|done].
    intros ->. by destruct Hnil.
  - intros a b wa wb Ha Hb Hne.
    apply (Hp a b); [apply Hkeys, dict_get_is_Some; eauto..|done|done|done].
Qed.

Lemma table_for_injective text codes a b w :
  table_for text codes ->
  dict_get codes a = Some w -> dict_get codes b = Some w -> a = b.
Proof.
  intros (_ & _ & _ & Hp) Ha Hb. destruct (decide (a = b)) as [|Hne]; [done|].
  by destruct (Hp a b w w Ha Hb Hne).
Qed.

(** ** Encoding *)

Lemma encode_Ok txt table probs :
  (forall c, c ∈ txt -> c ∈ dict_keys table) ->
  exists words,
    encode {| text := txt; codes := table; probabilities := probs |}
      = Ok (concat words) /\
    Forall2 (fun c w => dict_get table c = Some w) txt words.
Proof.
  intros Hin. unfold encode. cbn [text codes].
  assert (exists words, Forall2 (fun c w => dict_get table c = Some w) txt words)
    as (words & Hwords).
  { induction txt as [|c txt IH]; [by eexists; constructor|].
    destruct IH as (words & Hwords).
    { intros c' Hc'. apply Hin. by right. }
    destruct (proj2 (dict_get_is_Some table c)) as (w & Hw).
    { apply Hin. left. }
    exists (w :: words). by constructor. }
  exists words. split; [|done].
  apply bind_Ok. exists words. split; [|done].
  apply mapM_Ok_inv. eapply Forall2_impl; [done|].
  intros c w Hc. unfold dict_getitem. by rewrite Hc.
Qed.

(** ** Decoding *)

Lemma reverse_of_get_acc (table : dict ascii str) : forall (d : dict str ascii) w c,
  dict_get (fold_left (fun d '(char, code) => dict_set d code char) table d) w
    = Some c ->
  dict_get d w = Some c \/ (c, w) ∈ table.
Proof.
  induction table as [|[c0 w0] table IH]; intros d w c; simpl; [by left|].
  intros [H|H]%IH.
  - destruct (decide (w0 = w)) as [->|Hne].
    + rewrite dict_get_set_eq in H. injection H as ->. right. left.
    + rewrite dict_get_set_ne in H by done. by left.
  - right. by right.
Qed.

Lemma reverse_of_is_Some_acc (table : dict ascii str) : forall (d : dict str ascii) w,
  is_Some (dict_get d w) \/ (exists c, (c, w) ∈ table) ->
  is_Some (dict_get (fold_left (fun d '(char, code) => dict_set d code char) table d) w).
Proof.
  induction table as [|[c0 w0] table IH]; intros d w; simpl.
  - intros [H|(c & H)]; [done|]. by apply elem_of_nil in H.
  - intros H. apply IH. destruct (decide (w0 = w)) as [->|Hne].
    + left. rewrite dict_get_set_eq. eauto.
    + rewrite dict_get_set_ne by done. destruct H as [H|(c & H)]; [by left|].
      apply elem_of_cons in H as [[= -> ->]|H]; [done|]. right. eauto.
Qed.

Lemma reverse_of_get table w c :
  dict_get (reverse_of table) w = Some c -> (c, w) ∈ table.
Proof. intros [H|H]%reverse_of_get_acc; [done|done]. Qed.

Lemma reverse_of_is_Some table w c :
  (c, w) ∈ table -> is_Some (dict_get (reverse_of table) w).
Proof. intros H. apply reverse_of_is_Some_acc. right. eauto. Qed.

(** A bit that completes the code word of [c] emits [c] and clears the
    accumulator. *)
Lemma decode_body_match txt table c w acc bit decoded :
  table_for txt table -> dict_get table c = Some w -> w = acc ++ [bit] ->
  decode_body (reverse_of table) (decoded, acc) bit = Ok (decoded ++ [c], []).
Proof.
  intros Ht Hc ->. unfold decode_body, dict_contains, dict_getitem.
  destruct (reverse_of_is_Some table (acc ++ [bit]) c) as [c' Hc'].
  { by apply dict_get_elem_of. }
  rewrite bool_decide_eq_true_2 by eauto. rewrite Hc'. simpl.
  apply reverse_of_get in Hc'.
  apply (elem_of_dict_get _ _ _ (proj1 Ht)) in Hc'.
  by rewrite (table_for_injective txt table c c' _ Ht Hc Hc').
Qed.

(** A bit that leaves the accumulator a proper prefix of a code word
    emits nothing. *)
Lemma decode_body_skip txt table c w acc bit rest decoded :
  table_for txt table -> dict_get table c = Some w ->
  w = (acc ++ [bit]) ++ rest -> rest <> [] ->
  decode_body (reverse_of table) (decoded, acc) bit = Ok (decoded, acc ++ [bit]).
Proof.
  intros Ht Hc Hw Hrest. unfold decode_body, dict_contains.
  rewrite bool_decide_eq_false_2; [done|].
  intros [c' Hc']. apply reverse_of_get in Hc'.
  destruct Ht as (Hnd & _ & _ & Hp).
  apply (elem_of_dict_get _ _ _ Hnd) in Hc'.
  destruct (decide (c' = c)) as [->|Hne].
  - rewrite Hc in Hc'. injection Hc' as Hc'. rewrite Hc' in Hw.
    apply (f_equal length) in Hw. rewrite !length_app in Hw.
    destruct rest; [done|]. simpl in Hw. lia.
  - apply (Hp c' c _ _ Hc' Hc Hne). rewrite Hw. by apply prefix_app_r.
Qed.

Lemma decode_word txt table c w body_rest :
  table_for txt table -> dict_get table c = Some w ->
  forall q p decoded, w = p ++ q -> q <> [] ->
    for_each (decode_body (reverse_of table)) (q ++ body_rest) (decoded, p) =
    for_each (decode_body (reverse_of table)) body_rest (decoded ++ [c], []).
Proof.
  intros Ht Hc. induction q as [|bit q IH]; intros p decoded Hw Hq; [done|].
  simpl. destruct q as [|bit' q].
  - by rewrite (decode_body_match txt table c w p bit decoded Ht Hc Hw).
  - rewrite (decode_body_skip txt table c w p bit (bit' :: q) decoded Ht Hc);
      [|by rewrite <- (assoc_L (++))|done].
    simpl. apply IH; [|done]. by rewrite <- (assoc_L (++)).
Qed.

Lemma decode_words txt table body_rest :
  table_for txt table ->
  forall s words decoded,
    Forall2 (fun c w => dict_get table c = Some w) s words ->
    for_each (decode_body (reverse_of table)) (concat words ++ body_rest)
             (decoded, []) =
    for_each (decode_body (reverse_of table)) body_rest (decoded ++ s, []).
Proof.
  intros Ht s words decoded Hf. revert decoded.
  induction Hf as [|c w s words Hc Hf IH]; intros decoded.
  - by rewrite (right_id_L [] (++)).
  - simpl. rewrite <- (assoc_L (++)).
    rewrite (decode_word txt table c w _ Ht Hc w [] decoded eq_refl).
    + rewrite IH. by rewrite <- (assoc_L (++)).
    + destruct Ht as (_ & _ & Hne & _). by destruct (Hne c w Hc).
Qed.

Lemma decode_loop_total (table : dict ascii str) (bits : str) :
  forall st, exists st',
    for_each (decode_body (reverse_of table)) bits st = Ok st'.
Proof.
  induction bits as [|bit bits IH]; intros [decoded acc]; simpl; [eauto|].
  assert (exists st1, decode_body (reverse_of table) (decoded, acc) bit = Ok st1)
    as (st1 & ->); [|apply IH].
  unfold decode_body, dict_contains, dict_getitem. case_bool_decide as Hin.
  - destruct Hin as [c ->]. simpl. eauto.
  - eauto.
Qed.

(** ** A single-symbol alphabet *)

Lemma Counter_replicate_acc (c : ascii) (n : nat) (k : Z) :
  fold_left (fun d c => dict_set d c (default 0 (dict_get d c) + 1))
            (replicate n c) [(c, k)] = [(c, k + Z.of_nat n)].
Proof.
  revert k. induction n as [|n IH]; intros k; simpl.
  - by rewrite Z.add_0_r.
  - rewrite !decide_True by done. simpl. rewrite IH. do 2 f_equal. lia.
Qed.

Lemma Counter_replicate (c : ascii) (n : nat) :
  Counter (replicate (S n) c) = [(c, Z.of_nat (S n))].
Proof.
  unfold Counter. simpl. rewrite Counter_replicate_acc. do 3 f_equal. lia.
Qed.

Lemma single_symbol_table (c : ascii) (n : nat) :
  exists p,
    __init__ (replicate (S n) c) =
      Ok {| text := replicate (S n) c; codes := [(c, lit "0")];
            probabilities := [(c, p)] |}.
Proof.
  unfold __init__, _build_codes. cbn [text codes probabilities].
  rewrite _calculate_probabilities_Ok. unfold raw_probs.
  rewrite Counter_replicate. eexists. reflexivity.
Qed.

(** ** Recursion depth *)

Lemma ranked_length (S : str) :
  length (sort_desc (raw_probs S)) = alphabet_size S.
Proof.
  unfold alphabet_size.
  rewrite sort_desc_Permutation. unfold raw_probs. rewrite length_fmap.
  rewrite <- (length_fmap fst (Counter S)). apply Permutation_length.
  apply NoDup_Permutation.
  - apply NoDup_Counter.
  - apply NoDup_remove_dups.
  - intros c. rewrite elem_of_remove_dups. apply elem_of_Counter.
Qed.

Lemma _fano_depth_bound (fuel : nat) : forall probs b e,
  0 <= b -> e < Z.of_nat (length probs) ->
  (0 < fuel)%nat -> e - b < Z.of_nat fuel ->
  exists d, _fano_depth fuel probs b e = Ok d /\ Z.of_nat d <= Z.max 0 (e - b).
Proof.
  induction fuel as [|fuel IH]; intros probs b e Hb He Hpos Hfuel; [lia|].
  simpl. destruct (decide (e < b)) as [Heb|Heb].
  { exists O. split; [done | lia]. }
  destruct (decide (e = b)) as [->|Hne].
  { destruct (py_index_Ok probs b) as (p & -> & _); [lia|]. simpl.
    exists O. split; [done | lia]. }
  destruct (_med_in_range probs b e) as (m & -> & Hm); [lia..|]. simpl.
  destruct (IH probs b m) as (dl & -> & Hdl); [lia..|]. simpl.
  destruct (IH probs (m + 1) e) as (dr & -> & Hdr); [lia..|]. simpl.
  eexists. split; [done|]. lia.
Qed.

(** [_fano_depth] measures the recursion of [_fano_recursive]: a call of
    depth [d] completes with any budget above [d] and overflows every
    smaller one. *)
Lemma _fano_depth_fuel (fuel : nat) : forall probs b e d,
  0 <= b -> e < Z.of_nat (length probs) ->
  _fano_depth fuel probs b e = Ok d ->
  forall fuel' codes cc,
    ((d < fuel')%nat ->
       exists codes', _fano_recursive fuel' probs codes b e cc = Ok codes') /\
    ((fuel' <= d)%nat ->
       _fano_recursive fuel' probs codes b e cc = Raise RecursionError).
Proof.
  induction fuel as [|fuel IH]; intros probs b e d Hb He Hd; [done|].
  simpl in Hd. intros fuel' codes cc.
  destruct (decide (e < b)) as [Heb|Heb].
  { injection Hd as <-. destruct fuel' as [|fuel']; simpl.
    - split; [lia | done].
    - rewrite decide_True by done. split; [eauto | lia]. }
  destruct (decide (e = b)) as [->|Hne].
  { inv_bind Hd. injection Hd as <-. destruct fuel' as [|fuel']; simpl.
    - split; [lia | done].
    - rewrite decide_False by done. rewrite decide_True by done.
      rewrite Ha. simpl. split; [eauto | lia]. }
  inv_bind Hd. rename a into m, Ha into Hm.
  inv_bind Hd. rename a into dl, Ha into Hdl.
  inv_bind Hd. rename a into dr, Ha into Hdr. injection Hd as <-.
  destruct (_med_in_range probs b e) as (m' & Hm' & Hrange); [lia..|].
  rewrite Hm in Hm'. injection Hm' as <-.
  destruct fuel' as [|fuel']; simpl; [split; [lia | done]|].
  rewrite decide_False by done. rewrite decide_False by done.
  rewrite Hm. simpl.
  destruct (assign_range_marks probs (cc ++ lit "0") _ b (m + 1) codes eq_refl)
    as (codes1 & -> & _); [lia..|]. simpl.
  destruct (assign_range_marks probs (cc ++ lit "1") _ (m + 1) (e + 1) codes1 eq_refl)
    as (codes2 & -> & _); [lia..|]. simpl.
  destruct (IH probs b m dl) with (fuel' := fuel') (codes := codes2)
    (cc := cc ++ lit "0") as [HLok HLno]; [lia..|done|].
  split.
  - intros Hlt. destruct HLok as (codes3 & ->); [lia|]. simpl.
    destruct (IH probs (m + 1) e dr) with (fuel' := fuel') (codes := codes3)
      (cc := cc ++ lit "1") as [HRok _]; [lia..|done|].
    apply HRok. lia.
  - intros Hle. destruct (decide (fuel' <= dl)%nat) as [Hl|Hl].
    + by rewrite HLno.
    + destruct HLok as (codes3 & ->); [lia|]. simpl.
      destruct (IH probs (m + 1) e dr) with (fuel' := fuel') (codes := codes3)
        (cc := cc ++ lit "1") as [_ HRno]; [lia..|done|].
      apply HRno. lia.
Qed.

(** ** The order of binary64 numbers *)

Ltac key_cases :=
  unfold SFltb, SFleb, SFcompare, key_lt, key_eq, SFkey; cbn [fst snd];
  repeat match goal with
  | |- context [Z.compare ?a ?b] => destruct (Z.compare_spec a b)
  | |- context [Pos.compare_cont Eq ?a ?b] =>
      change (Pos.compare_cont Eq a b) with (Pos.compare a b);
      destruct (Pos.compare_spec a b)
  end;
  cbn [CompOpp];
  (split; [intros ?; split_and!; (done || lia) | intros (? & ? & ?); (done || lia)]).

Lemma SFltb_key (x y : spec_float) :
  SFltb x y = true <->
  x <> S754_nan /\ y <> S754_nan /\ key_lt (SFkey x) (SFkey y).
Proof.
  destruct x as [[]|[]| |[] mx ex], y as [[]|[]| |[] my ey]; key_cases.
Qed.

Lemma SFleb_key (x y : spec_float) :
  SFleb x y = true <->
  x <> S754_nan /\ y <> S754_nan /\
  (key_lt (SFkey x) (SFkey y) \/ key_eq (SFkey x) (SFkey y)).
Proof.
  destruct x as [[]|[]| |[] mx ex], y as [[]|[]| |[] my ey]; key_cases.
Qed.

Lemma float_ltb_irrefl (x : float) : (x <? x)%float = false.
Proof.
  apply not_true_is_false. rewrite FloatAxioms.ltb_spec, SFltb_key.
  unfold key_lt. lia.
Qed.

Lemma float_ltb_trans (x y z : float) :
  (x <? y)%float = true -> (y <? z)%float = true -> (x <? z)%float = true.
Proof.
  rewrite !FloatAxioms.ltb_spec, !SFltb_key. unfold key_lt.
  intros (? & ? & ?) (? & ? & ?). split_and!; [done..|lia].
Qed.

Lemma float_leb_ltb_trans (x y z : float) :
  (x <=? y)%float = true -> (y <? z)%float = true -> (x <? z)%float = true.
Proof.
  rewrite FloatAxioms.leb_spec, !FloatAxioms.ltb_spec, SFleb_key, !SFltb_key.
  unfold key_lt, key_eq.
  intros (? & ? & ?) (? & ? & ?). split_and!; [done..|lia].
Qed.

(** Only [+infinity] and NaN are not below [+infinity], and nothing that
    is not below [+infinity] is below either of them. *)
Lemma float_ltb_top (x y : float) :
  (x <? infinity)%float = false -> (y <? infinity)%float = false ->
  (y <? x)%float = false.
Proof.
  rewrite !FloatAxioms.ltb_spec. change (Prim2SF infinity) with (S754_infinity false).
  intros Hx%not_true_iff_false Hy%not_true_iff_false. apply not_true_iff_false.
  rewrite SFltb_key in *.
  destruct (Prim2SF x) as [[]|[]| |[] mx ex], (Prim2SF y) as [[]|[]| |[] my ey];
    unfold key_lt, SFkey in *; cbn [fst snd] in *;
    intros (? & ? & ?);
    first [ done
          | solve [apply Hx; split_and!; (done || lia)]
          | solve [apply Hy; split_and!; (done || lia)] ].
Qed.

Lemma float_ltb_leb (x y : float) :
  (x <? y)%float = true -> (x <=? y)%float = true.
Proof.
  rewrite FloatAxioms.ltb_spec, FloatAxioms.leb_spec, SFltb_key, SFleb_key.
  intros (? & ? & ?). split_and!; [done..|by left].
Qed.

Lemma float_leb_trans (x y z : float) :
  (x <=? y)%float = true -> (y <=? z)%float = true -> (x <=? z)%float = true.
Proof.
  rewrite !FloatAxioms.leb_spec, !SFleb_key. unfold key_lt, key_eq.
  intros (? & ? & ?) (? & ? & ?). split_and!; [done..|lia].
Qed.

(** Two numbers that are not NaN (each is below some bound) compare one
    way or the other. *)
Lemma float_leb_total (x y a b : float) :
  (x <=? a)%float = true -> (y <=? b)%float = true ->
  (x <? y)%float = false -> (y <=? x)%float = true.
Proof.
  rewrite !FloatAxioms.leb_spec, FloatAxioms.ltb_spec, !SFleb_key.
  intros (Hx & _ & _) (Hy & _ & _) Hlt%not_true_iff_false.
  rewrite SFltb_key in Hlt. split_and!; [done..|].
  unfold key_lt, key_eq in *.
  destruct (decide (key_lt (SFkey (Prim2SF x)) (SFkey (Prim2SF y)))) as [Hk|Hk].
  - destruct Hlt. by split_and!.
  - unfold key_lt in Hk. lia.
Qed.

Lemma float_ltb_neq (x y : float) : (x <? y)%float = true -> x <> y.
Proof. intros Hlt ->. by rewrite float_ltb_irrefl in Hlt. Qed.

#[global] Instance float_eq_dec : EqDecision float.
Proof.
  intros x y. destruct (PrimFloat.Leibniz.eqb x y) eqn:Heq.
  - left. by apply FloatAxioms.Leibniz.eqb_spec.
  - right. intros H%FloatAxioms.Leibniz.eqb_spec. congruence.
Defined.

(** ** The split point is the first minimum of the computed differences *)

Lemma sum_snoc (xs : list float) (x : float) :
  sum (xs ++ [x]) = (sum xs + x)%float.
Proof. unfold sum. by rewrite fold_left_app. Qed.

Lemma py_slice_eq {A : Type} (l : list A) (b e : Z) :
  0 <= b -> b <= e -> e <= Z.of_nat (length l) ->
  py_slice l b e = take (Z.to_nat (e - b)) (drop (Z.to_nat b) l).
Proof.
  intros Hb Hbe He. unfold py_slice, slice_bound.
  rewrite !decide_False by lia. by rewrite !Z.min_l by lia.
Qed.

Lemma py_slice_snoc {A : Type} (l : list A) (b k : Z) (x : A) :
  0 <= b -> b <= k -> l !! Z.to_nat k = Some x ->
  py_slice l b (k + 1) = py_slice l b k ++ [x].
Proof.
  intros Hb Hbk Hx. pose proof (lookup_lt_Some _ _ _ Hx) as Hlen.
  rewrite !py_slice_eq by lia.
  replace (Z.to_nat (k + 1 - b)) with (S (Z.to_nat (k - b))) by lia.
  apply take_S_r. rewrite lookup_drop. rewrite <- Hx. f_equal. lia.
Qed.

Lemma mass_empty probs b :
  0 <= b -> b <= Z.of_nat (length probs) -> mass probs b (b - 1) = 0%float.
Proof.
  intros Hb Hlen. unfold mass. rewrite py_slice_eq by lia.
  by replace (Z.to_nat (b - 1 + 1 - b)) with O by lia.
Qed.

Lemma mass_step probs b k pk :
  0 <= b -> b <= k -> probs !! Z.to_nat k = Some pk ->
  mass probs b k = (mass probs b (k - 1) + pk.2)%float.
Proof.
  intros Hb Hbk Hk. unfold mass.
  rewrite (py_slice_snoc probs b k pk Hb Hbk Hk), fmap_app.
  change ([pk].*2) with [pk.2]. rewrite sum_snoc.
  by replace (k - 1 + 1) with k by lia.
Qed.

Lemma med_body_inv probs total_sum b k st :
  0 <= b -> b <= k -> k < Z.of_nat (length probs) ->
  med_inv probs total_sum b k st ->
  exists st', med_body probs total_sum st k = Ok st' /\
    med_inv probs total_sum b (k + 1) st'.
Proof.
  intros Hb Hbk Hk. destruct st as [[left_sum min_diff] best_m].
  intros (-> & HA & HB). unfold med_body.
  destruct (py_index_Ok probs k) as (pk & -> & Hpk); [lia|]. simpl.
  rewrite <- (mass_step probs b k pk Hb Hbk Hpk).
  change (PrimFloat.abs (mass probs b k - (total_sum - mass probs b k)))
    with (computed_diff probs total_sum b k).
  destruct (computed_diff probs total_sum b k <? min_diff)%float eqn:Hlt.
  - eexists. split; [done|]. unfold med_inv.
    replace (k + 1 - 1) with k by lia. split_and!; [done|..].
    + intros m' Hm'. destruct (decide (m' = k)) as [->|Hne].
      * apply float_ltb_irrefl.
      * apply not_true_is_false. intros Hm.
        pose proof (float_ltb_trans _ _ _ Hm Hlt) as Hcontra.
        rewrite HA in Hcontra by lia. done.
    + left. split_and!; [done|lia..|].
      intros m' Hm'. apply not_true_is_false. intros Hm.
      pose proof (float_leb_ltb_trans _ _ _ Hm Hlt) as Hcontra.
      rewrite HA in Hcontra by lia. done.
  - eexists. split; [done|]. unfold med_inv.
    replace (k + 1 - 1) with k by lia. split_and!; [done|..].
    + intros m' Hm'. destruct (decide (m' = k)) as [->|Hne]; [done|].
      apply HA. lia.
    + destruct HB as [(? & ? & ?)|?]; [left | by right].
      split_and!; [done|lia..|done].
Qed.

Lemma med_loop_inv probs total_sum b e (n : nat) : forall k st,
  Z.to_nat (e - k) = n -> 0 <= b -> b <= k -> e <= Z.of_nat (length probs) ->
  med_inv probs total_sum b k st ->
  exists st', for_each (med_body probs total_sum) (range k e) st = Ok st' /\
    med_inv probs total_sum b (Z.max k e) st'.
Proof.
  induction n as [|n IH]; intros k st Hn Hb Hbk He Hinv.
  - rewrite range_nil by lia. simpl. exists st. split; [done|].
    by replace (Z.max k e) with k by lia.
  - rewrite range_cons by lia. simpl.
    destruct (med_body_inv probs total_sum b k st) as (st1 & -> & Hinv1);
      [lia..|done|].
    simpl. destruct (IH (k + 1) st1) as (st' & -> & Hinv'); [lia..|done|].
    exists st'. split; [done|].
    by replace (Z.max k e) with (Z.max (k + 1) e) by lia.
Qed.

Lemma _med_first_minimum probs b e :
  0 <= b -> b < e -> e < Z.of_nat (length probs) ->
  exists m, _med probs b e = Ok m /\
    first_minimum (computed_diff probs (mass probs b e) b) b e m.
Proof.
  intros Hb Hbe He. unfold _med. rewrite decide_False by lia.
  change (sum (py_slice probs b (e + 1)).*2) with (mass probs b e).
  destruct (med_loop_inv probs (mass probs b e) b e _ b (0%float, infinity, b) eq_refl)
    as ([[left_sum min_diff] best_m] & -> & _ & HA & HB); [lia..| |].
  { split_and!; [by rewrite mass_empty by lia | intros; lia | by right]. }
  simpl. eexists. split; [done|].
  replace (Z.max b e) with e in * by lia.
  destruct HB as [(-> & Hm & HB)|[-> ->]].
  - split_and!; [lia..|done|done].
  - split_and!; [lia..| |intros; lia].
    intros m' Hm'. apply float_ltb_top; apply HA; lia.
Qed.

(** ** Binary64 division of small integers *)

Lemma digits2_pos_bounds (p : positive) :
  2 ^ (Z.pos (digits2_pos p) - 1) <= Z.pos p < 2 ^ Z.pos (digits2_pos p).
Proof.
  induction p as [p IH|p IH|]; cbn [digits2_pos].
  - rewrite Pos2Z.inj_succ.
    replace (Z.succ (Z.pos (digits2_pos p)) - 1)
      with (Z.succ (Z.pos (digits2_pos p) - 1)) by lia.
    rewrite !Z.pow_succ_r by lia. lia.
  - rewrite Pos2Z.inj_succ.
    replace (Z.succ (Z.pos (digits2_pos p)) - 1)
      with (Z.succ (Z.pos (digits2_pos p) - 1)) by lia.
    rewrite !Z.pow_succ_r by lia. lia.
  - simpl. lia.
Qed.

Lemma digits2_pos_range (p : positive) (d : Z) :
  2 ^ (d - 1) <= Z.pos p < 2 ^ d -> 0 < d -> Z.pos (digits2_pos p) = d.
Proof.
  intros Hp Hd. pose proof (digits2_pos_bounds p) as Hb.
  destruct (Z.lt_trichotomy (Z.pos (digits2_pos p)) d) as [Hlt|[Heq|Hgt]]; [|done|].
  - assert (2 ^ Z.pos (digits2_pos p) <= 2 ^ (d - 1)) by (apply Z.pow_le_mono_r; lia).
    lia.
  - assert (2 ^ d <= 2 ^ (Z.pos (digits2_pos p) - 1)) by (apply Z.pow_le_mono_r; lia).
    lia.
Qed.

Lemma iter_xO_pow (p k : positive) :
  Z.pos (Pos.iter xO p k) = Z.pos p * 2 ^ Z.pos k.
Proof.
  induction k as [|k IH] using Pos.peano_ind.
  - simpl. lia.
  - rewrite Pos.iter_succ, Pos2Z.inj_succ, Z.pow_succ_r by lia.
    change (Z.pos (Pos.iter xO p k)~0) with (2 * Z.pos (Pos.iter xO p k)). lia.
Qed.

Lemma fexp_small (z : Z) : -1021 <= z -> fexp prec emax z = z - 53.
Proof. intros. unfold fexp, emin, prec, emax. lia. Qed.

Lemma finish_normal (m : positive) (e : Z) :
  2 ^ 52 <= Z.pos m < 2 ^ 53 -> -1074 <= e <= 971 ->
  finish (shr_fexp prec emax (Z.pos m) e loc_Exact) = S754_finite false m e.
Proof.
  intros Hm He. unfold shr_fexp. cbn [Zdigits2].
  rewrite (digits2_pos_range m 53) by (change (53 - 1) with 52; lia).
  rewrite fexp_small by lia. replace (53 + e - 53 - e) with 0 by lia.
  cbn [shr shr_record_of_loc finish shr_m].
  unfold emax, prec. replace (e <=? 1024 - 53) with true; [done|].
  symmetry. apply Z.leb_le. lia.
Qed.

Lemma finish_carry (e : Z) :
  -1074 <= e <= 970 ->
  finish (shr_fexp prec emax (2 ^ 53) e loc_Exact)
    = S754_finite false 4503599627370496 (e + 1).
Proof.
  intros He. unfold shr_fexp.
  change (Zdigits2 (2 ^ 53)) with 54.
  rewrite fexp_small by lia. replace (54 + e - 53 - e) with 1 by lia.
  cbn [shr SpecFloat.iter_pos shr_record_of_loc].
  change (2 ^ 53) with (Z.pos (xO 4503599627370496)).
  cbn [shr_1 orb finish shr_m].
  unfold emax, prec. replace (e + 1 <=? 1024 - 53) with true; [done|].
  symmetry. apply Z.leb_le. lia.
Qed.

Lemma finish_either (q : positive) (e m : Z) :
  2 ^ 52 <= Z.pos q < 2 ^ 53 -> -1074 <= e <= 970 ->
  m = Z.pos q \/ m = Z.pos q + 1 ->
  exists M E,
    finish (shr_fexp prec emax m e loc_Exact) = S754_finite false M E /\
    ((E = e /\ 2 ^ 52 <= Z.pos M < 2 ^ 53 /\ Z.pos M = m) \/
     (E = e + 1 /\ Z.pos M = 2 ^ 52 /\ m = Z.pos q + 1)).
Proof.
  intros Hq He [->| ->].
  - eexists _, _. rewrite finish_normal by lia. split; [done|]. left. lia.
  - destruct (Z.eq_dec (Z.pos q + 1) (2 ^ 53)) as [Heq|Hne].
    + rewrite Heq. eexists _, _. rewrite finish_carry by lia.
      split; [done|]. right. split; [done|]. split; [done|lia].
    + replace (Z.pos q + 1) with (Z.pos (q + 1)) by lia.
      eexists _, _. rewrite finish_normal by lia. split; [done|]. left. lia.
Qed.

Lemma round_nearest_even_either (m : Z) (loc : location) :
  round_nearest_even m loc = m \/ round_nearest_even m loc = m + 1.
Proof.
  destruct loc as [|[| |]]; cbn [round_nearest_even]; auto.
  destruct (Z.even m); auto.
Qed.

Lemma binary_round_aux_finish (s : bool) (m e : Z) (loc : location) :
  binary_round_aux prec emax false m e loc =
  finish (let '(mrs, e') := shr_fexp prec emax m e loc in
          shr_fexp prec emax
            (round_nearest_even (shr_m mrs) (loc_of_shr_record mrs)) e' loc_Exact).
Proof.
  unfold binary_round_aux, finish.
  destruct (shr_fexp prec emax m e loc) as [mrs e']. reflexivity.
Qed.

(** A quotient of 53 bits, rounded to nearest even. *)
Lemma round_53 (q : positive) (e : Z) (loc : location) :
  2 ^ 52 <= Z.pos q < 2 ^ 53 -> -1074 <= e <= 970 ->
  exists M E,
    binary_round_aux prec emax false (Z.pos q) e loc = S754_finite false M E /\
    ((E = e /\ 2 ^ 52 <= Z.pos M < 2 ^ 53 /\ (loc = loc_Exact -> M = q)) \/
     (E = e + 1 /\ Z.pos M = 2 ^ 52 /\ loc <> loc_Exact)).
Proof.
  intros Hq He. rewrite (binary_round_aux_finish false). unfold shr_fexp at 1.
  cbn [Zdigits2].
  rewrite (digits2_pos_range q 53) by (change (53 - 1) with 52; lia).
  rewrite fexp_small by lia. replace (53 + e - 53 - e) with 0 by lia.
  cbn [shr].
  destruct (finish_either q e
              (round_nearest_even (shr_m (shr_record_of_loc (Z.pos q) loc))
                 (loc_of_shr_record (shr_record_of_loc (Z.pos q) loc))))
    as (M & E & -> & HME); [done..| |].
  { destruct loc as [|[| |]]; apply round_nearest_even_either. }
  exists M, E. split; [done|].
  destruct HME as [(-> & HM & HMq)|(-> & HM & Hcarry)]; [left | right].
  - split; [done|]. split; [done|]. intros ->.
    cbn [shr_record_of_loc loc_of_shr_record shr_m round_nearest_even] in HMq. lia.
  - split; [done|]. split; [done|]. intros ->.
    cbn [shr_record_of_loc loc_of_shr_record shr_m round_nearest_even] in Hcarry. lia.
Qed.

(** A quotient of 54 bits loses its last bit before it is rounded. *)
Lemma round_54 (q : positive) (e : Z) (loc : location) :
  2 ^ 53 <= Z.pos q < 2 ^ 54 -> -1074 <= e <= 969 ->
  exists M E,
    binary_round_aux prec emax false (Z.pos q) e loc = S754_finite false M E /\
    ((E = e + 1 /\ 2 ^ 52 <= Z.pos M < 2 ^ 53 /\
      (Z.pos q = 2 ^ 53 -> loc = loc_Exact -> Z.pos M = 2 ^ 52)) \/
     (E = e + 2 /\ Z.pos M = 2 ^ 52 /\ (Z.pos q = 2 ^ 53 -> loc <> loc_Exact))).
Proof.
  intros Hq He. rewrite (binary_round_aux_finish false). unfold shr_fexp at 1.
  cbn [Zdigits2].
  rewrite (digits2_pos_range q 54) by (change (54 - 1) with 53; lia).
  rewrite fexp_small by lia. replace (54 + e - 53 - e) with 1 by lia.
  cbn [shr SpecFloat.iter_pos].
  assert (exists p r s,
            shr_1 (shr_record_of_loc (Z.pos q) loc) =
              {| shr_m := Z.pos p; shr_r := r; shr_s := s |} /\
            2 ^ 52 <= Z.pos p < 2 ^ 53 /\
            (Z.pos q = 2 ^ 53 -> loc = loc_Exact ->
               Z.pos p = 2 ^ 52 /\ r = false /\ s = false))
    as (p & r & s & -> & Hp & Hexact).
  { change (2 ^ 54) with (2 * 2 ^ 53) in Hq. change (2 ^ 53) with (2 * 2 ^ 52) in Hq.
    change (2 ^ 53) with (2 * 2 ^ 52).
    destruct q as [p|p|]; [| |simpl in Hq; lia].
    - exists p. destruct loc as [|[| |]]; cbn [shr_record_of_loc shr_1];
        eexists _, _; (split; [done|]); (split; [lia|]); intros; lia.
    - exists p. destruct loc as [|[| |]]; cbn [shr_record_of_loc shr_1];
        eexists _, _; (split; [done|]); (split; [lia|]);
        intros ? ?; try done; (split; [lia | done]). }
  destruct (finish_either p (e + 1)
              (round_nearest_even (shr_m {| shr_m := Z.pos p; shr_r := r; shr_s := s |})
                 (loc_of_shr_record {| shr_m := Z.pos p; shr_r := r; shr_s := s |})))
    as (M & E & -> & HME); [done|lia| |].
  { apply round_nearest_even_either. }
  exists M, E. split; [done|].
  destruct HME as [(-> & HM & HMq)|(-> & HM & Hcarry)].
  - left. split; [done|]. split; [done|]. intros Hq53 Hloc.
    destruct (Hexact Hq53 Hloc) as (Hp52 & -> & ->).
    cbn [loc_of_shr_record shr_m round_nearest_even] in HMq. lia.
  - right. replace (e + 1 + 1) with (e + 2) by lia.
    split; [done|]. split; [done|]. intros Hq53 Hloc.
    destruct (Hexact Hq53 Hloc) as (Hp52 & -> & ->).
    cbn [loc_of_shr_record shr_m round_nearest_even] in Hcarry. lia.
Qed.

(** A positive integer below [2^53] converts to the binary64 number with
    the same value, its mantissa normalised to 53 bits. *)
Lemma float_of_int_spec (n : Z) :
  1 <= n < 2 ^ 53 ->
  exists M E,
    Prim2SF (float_of_int n) = S754_finite false M E /\
    2 ^ 52 <= Z.pos M < 2 ^ 53 /\ -52 <= E <= 0 /\ Z.pos M = n * 2 ^ (- E).
Proof.
  intros Hn. unfold float_of_int.
  rewrite FloatAxioms.of_uint63_spec, Uint63.of_Z_spec.
  rewrite Z.mod_small by (change wB with (2 ^ 10 * 2 ^ 53); lia).
  destruct n as [|p|p]; [lia| |lia]. cbn [binary_normalize]. unfold binary_round.
  pose proof (digits2_pos_bounds p) as Hd.
  set (d := Z.pos (digits2_pos p)) in *.
  assert (1 <= d <= 53) as Hd53.
  { split; [lia|]. destruct (Z_le_gt_dec d 53) as [|Hgt]; [done|].
    assert (2 ^ 53 <= 2 ^ (d - 1)) by (apply Z.pow_le_mono_r; lia). lia. }
  rewrite fexp_small by lia. unfold shl_align.
  destruct (Z.eq_dec d 53) as [Hd_eq|Hd_ne].
  - replace (d + 0 - 53 - 0) with 0 by lia.
    rewrite Hd_eq in Hd. change (53 - 1) with 52 in Hd.
    destruct (round_53 p 0 loc_Exact) as (M & E & -> & [(-> & HM & HMp)|(_ & _ & ?)]);
      [lia..| |done].
    exists M, 0. rewrite (HMp eq_refl) in *. split; [done|].
    split; [done|]. split; [lia|]. simpl. lia.
  - set (k := Z.to_pos (53 - d)).
    replace (d + 0 - 53 - 0) with (Z.neg k) by lia.
    assert (2 ^ (d - 1) * 2 ^ Z.pos k = 2 ^ 52) as Hlo.
    { rewrite <- Z.pow_add_r by lia. f_equal. lia. }
    assert (2 ^ d * 2 ^ Z.pos k = 2 ^ 53) as Hhi.
    { rewrite <- Z.pow_add_r by lia. f_equal. lia. }
    assert (0 < 2 ^ Z.pos k) as Hk by (apply Z.pow_pos_nonneg; lia).
    pose proof (iter_xO_pow p k) as Hmz.
    destruct (round_53 (Pos.iter xO p k) (d + 0 - 53) loc_Exact)
      as (M & E & -> & [(-> & HM & HMp)|(_ & _ & ?)]); [nia|lia| |done].
    exists M, (d + 0 - 53). rewrite (HMp eq_refl) in *. split; [done|].
    split; [done|]. split; [lia|]. rewrite Hmz. do 2 f_equal. lia.
Qed.

Lemma new_location_exact (nb : Z) : new_location nb 0 = loc_Exact.
Proof.
  unfold new_location, new_location_even, new_location_odd.
  by destruct (Z.even nb).
Qed.

(** The quotient of two normalised positive numbers, the first no
    greater than the second, is positive and at most one. *)
Lemma SFdiv_le_one (mx my : positive) (ex ey : Z) :
  2 ^ 52 <= Z.pos mx < 2 ^ 53 -> 2 ^ 52 <= Z.pos my < 2 ^ 53 ->
  -52 <= ex <= 0 -> -52 <= ey <= 0 ->
  ex < ey \/ (ex = ey /\ Z.pos mx <= Z.pos my) ->
  exists M E,
    SFdiv prec emax (S754_finite false mx ex) (S754_finite false my ey)
      = S754_finite false M E /\
    (E < -52 \/ (E = -52 /\ Z.pos M = 2 ^ 52)).
Proof.
  intros Hmx Hmy Hex Hey Hle. cbn [SFdiv xorb]. unfold SFdiv_core_binary.
  cbn [Zdigits2].
  rewrite (digits2_pos_range mx 53), (digits2_pos_range my 53)
    by (change (53 - 1) with 52; lia).
  rewrite fexp_small by lia.
  replace (Z.min (53 + ex - (53 + ey) - 53) (ex - ey)) with (ex - ey - 53) by lia.
  replace (ex - ey - (ex - ey - 53)) with 53 by lia.
  cbv iota beta. rewrite Z.shiftl_mul_pow2 by lia.
  pose proof (Z_div_mod (Z.pos mx * 2 ^ 53) (Z.pos my) eq_refl) as Hdiv.
  destruct (Z.div_eucl (Z.pos mx * 2 ^ 53) (Z.pos my)) as [q r].
  destruct Hdiv as [Hqr Hr].
  change (2 ^ 53) with 9007199254740992 in *.
  change (2 ^ 52) with 4503599627370496 in *.
  assert (4503599627370496 <= q < 18014398509481984) as Hq by nia.
  destruct q as [|q|q]; [lia| |lia].
  destruct (Z_lt_ge_dec (Z.pos q) 9007199254740992) as [Hq53|Hq54].
  - destruct (round_53 q (ex - ey - 53) (new_location (Z.pos my) r))
      as (M & E & -> & HME);
      [change (2 ^ 53) with 9007199254740992;
       change (2 ^ 52) with 4503599627370496; lia | lia |].
    exists M, E. split; [done|].
    change (2 ^ 52) with 4503599627370496 in HME. lia.
  - destruct (round_54 q (ex - ey - 53) (new_location (Z.pos my) r))
      as (M & E & -> & HME);
      [change (2 ^ 54) with 18014398509481984;
       change (2 ^ 53) with 9007199254740992; lia | lia |].
    exists M, E. split; [done|].
    change (2 ^ 53) with 9007199254740992 in HME.
    change (2 ^ 52) with 4503599627370496 in HME.
    destruct Hle as [Hlt|[-> Hmle]]; [lia|].
    assert (Z.pos q = 9007199254740992 /\ r = 0) as [Hq_eq ->] by nia.
    rewrite new_location_exact in HME.
    destruct HME as [(-> & _ & HM)|(_ & _ & Hno)].
    + right. split; [lia|]. by apply HM.
    + by destruct (Hno Hq_eq).
Qed.

Lemma float_ratio_spec (n t : Z) :
  1 <= n <= t -> t < 2 ^ 53 ->
  exists M E,
    Prim2SF (float_of_int n / float_of_int t)%float = S754_finite false M E /\
    (E < -52 \/ (E = -52 /\ Z.pos M = 2 ^ 52)).
Proof.
  intros Hn Ht. rewrite FloatAxioms.div_spec.
  destruct (float_of_int_spec n) as (mx & ex & -> & Hmx & Hex & Hnx); [lia|].
  destruct (float_of_int_spec t) as (my & ey & -> & Hmy & Hey & Hty); [lia|].
  apply SFdiv_le_one; [done..|].
  destruct (Z_lt_ge_dec ex ey) as [|Hge]; [by left|right].
  assert (ex = ey \/ ey < ex) as [->|Hlt] by lia.
  - split; [done|]. rewrite Hnx, Hty. apply Z.mul_le_mono_nonneg_r; [|lia].
    apply Z.pow_nonneg. lia.
  - exfalso.
    assert (2 ^ (- ey) = 2 ^ (- ex) * 2 ^ (ex - ey)) as Hpow.
    { rewrite <- Z.pow_add_r by lia. f_equal. lia. }
    assert (2 ^ 1 <= 2 ^ (ex - ey)) as H2 by (apply Z.pow_le_mono_r; lia).
    assert (0 < 2 ^ (- ex)) as Hpos by (apply Z.pow_pos_nonneg; lia).
    change (2 ^ 1) with 2 in H2.
    change (2 ^ 53) with 9007199254740992 in *.
    change (2 ^ 52) with 4503599627370496 in *.
    rewrite Hpow in Hty. nia.
Qed.

(** Every probability the code computes lies in (0, 1]. *)
Lemma float_ratio_unit (n t : Z) :
  1 <= n <= t -> t < 2 ^ 53 ->
  (0 <? float_of_int n / float_of_int t)%float = true /\
  (float_of_int n / float_of_int t <=? 1)%float = true.
Proof.
  intros Hn Ht. destruct (float_ratio_spec n t Hn Ht) as (M & E & HME & Hbound).
  rewrite FloatAxioms.ltb_spec, FloatAxioms.leb_spec, HME.
  change (Prim2SF 0) with (S754_zero false).
  change (Prim2SF 1) with (S754_finite false 4503599627370496 (-52)).
  split; [done|]. unfold SFleb, SFcompare.
  destruct Hbound as [Hlt|[-> HM]].
  - by rewrite (proj2 (Z.compare_lt_iff E (-52)) Hlt).
  - cbn [Z.compare Pos.compare]. 
    change (2 ^ 52) with (Z.pos 4503599627370496) in HM. injection HM as ->. done.
Qed.

(** ** The ranked list *)

Lemma occurrences_cons (c x : ascii) (S : str) :
  occurrences c (x :: S) = (if decide (x = c) then 1 else 0) + occurrences c S.
Proof.
  unfold occurrences. rewrite filter_cons. destruct (decide (x = c)); simpl; lia.
Qed.

Lemma occurrences_pos (c : ascii) (S : str) : c ∈ S -> 1 <= occurrences c S.
Proof.
  intros Hc. unfold occurrences.
  assert (c ∈ filter (fun x => x = c) S) as Hin by by apply list_elem_of_filter.
  destruct (filter (fun x => x = c) S); [by apply elem_of_nil in Hin | simpl; lia].
Qed.

Lemma occurrences_le (c : ascii) (S : str) : occurrences c S <= Z.of_nat (length S).
Proof. unfold occurrences. pose proof (length_filter (fun x => x = c) S). lia. Qed.

Lemma Counter_acc_get (S : str) : forall (d : dict ascii Z) (c : ascii),
  default 0 (dict_get
    (fold_left (fun d c => dict_set d c (default 0 (dict_get d c) + 1)) S d) c)
  = default 0 (dict_get d c) + occurrences c S.
Proof.
  induction S as [|x S IH]; intros d c; simpl.
  - unfold occurrences. simpl. lia.
  - rewrite IH, occurrences_cons. destruct (decide (x = c)) as [->|Hne].
    + rewrite dict_get_set_eq. simpl. lia.
    + rewrite dict_get_set_ne by done. lia.
Qed.

Lemma Counter_acc_keys (S : str) : forall (d : dict ascii Z),
  dict_keys (fold_left (fun d c => dict_set d c (default 0 (dict_get d c) + 1)) S d)
  = dict_keys d ++ filter (fun c => c ∉ dict_keys d) (first_occurrences S).
Proof.
  induction S as [|x S IH]; intros d; simpl.
  - by rewrite filter_nil, (right_id_L [] (++)).
  - rewrite IH, dict_keys_set. destruct (decide (x ∈ dict_keys d)) as [Hx|Hx].
    + rewrite filter_cons_False by tauto. f_equal.
      rewrite list_filter_filter. apply list_filter_iff.
      intros c. split; [|tauto]. intros Hc. split; [done|]. by intros ->.
    + rewrite filter_cons_True by done. rewrite <- (assoc_L (++)). f_equal.
      simpl. f_equal. rewrite list_filter_filter. apply list_filter_iff.
      intros c. rewrite not_elem_of_app, list_elem_of_singleton. done.
Qed.

Lemma Counter_keys (S : str) : dict_keys (Counter S) = first_occurrences S.
Proof.
  unfold Counter. rewrite Counter_acc_keys.
  change (dict_keys []) with (@nil ascii). rewrite (left_id_L [] (++)).
  induction (first_occurrences S) as [|c l IH]; [done|].
  rewrite filter_cons_True by apply not_elem_of_nil. by rewrite IH.
Qed.

Lemma dict_eq_fmap {K V : Type} `{EqDecision K} (d : dict K V) (dflt : V) :
  NoDup (dict_keys d) ->
  d = (fun k => (k, default dflt (dict_get d k))) <$> dict_keys d.
Proof.
  unfold dict_keys. induction d as [|[k v] d IH]; [done|].
  rewrite !fmap_cons. cbn [fst]. intros [Hk Hd]%NoDup_cons.
  cbn [dict_get]. rewrite decide_True by done. simpl. f_equal.
  rewrite IH at 1 by done. apply list_fmap_ext.
  intros i k' Hk'. rewrite decide_False; [done|].
  intros ->. apply Hk. by eapply list_elem_of_lookup_2.
Qed.

Lemma Counter_eq (S : str) :
  Counter S = (fun c => (c, occurrences c S)) <$> first_occurrences S.
Proof.
  rewrite (dict_eq_fmap (Counter S) 0) at 1 by apply NoDup_Counter.
  rewrite Counter_keys. apply list_fmap_ext. intros _ c _. f_equal.
  unfold Counter. by rewrite Counter_acc_get.
Qed.

Lemma raw_probs_eq (S : str) :
  raw_probs S = (fun c => (c, probability_of S c)) <$> first_occurrences S.
Proof.
  unfold raw_probs. rewrite Counter_eq, <- list_fmap_compose. done.
Qed.

Lemma NoDup_first_occurrences (S : str) : NoDup (first_occurrences S).
Proof. rewrite <- Counter_keys. apply NoDup_Counter. Qed.

Lemma elem_of_first_occurrences (S : str) (c : ascii) :
  c ∈ first_occurrences S <-> c ∈ S.
Proof. rewrite <- Counter_keys. apply elem_of_Counter. Qed.

Lemma Zsum_dict_set_incr (d : dict ascii Z) (x : ascii) :
  Zsum (dict_set d x (default 0 (dict_get d x) + 1)).*2 = Zsum d.*2 + 1.
Proof.
  induction d as [|[k v] d IH]; [done|]. cbn [dict_set dict_get].
  destruct (decide (x = k)) as [->|Hne]; rewrite !fmap_cons.
  - unfold Zsum. simpl. lia.
  - unfold Zsum in *. cbn [foldr snd]. rewrite IH. lia.
Qed.

Lemma Zsum_Counter_acc (S : str) : forall (d : dict ascii Z),
  Zsum (fold_left (fun d c => dict_set d c (default 0 (dict_get d c) + 1)) S d).*2
  = Zsum d.*2 + Z.of_nat (length S).
Proof.
  induction S as [|x S IH]; intros d; simpl; [lia|].
  rewrite IH, Zsum_dict_set_incr. lia.
Qed.

Lemma Zsum_occurrences (S : str) :
  Zsum ((fun c => occurrences c S) <$> first_occurrences S) = Z.of_nat (length S).
Proof.
  pose proof (Zsum_Counter_acc S []) as H. fold (Counter S) in H.
  rewrite Counter_eq, <- list_fmap_compose in H. exact H.
Qed.

(** ** The sort *)

Lemma insert_desc_descending (x : ascii * float) (l : list (ascii * float)) :
  (x.2 <=? 1)%float = true ->
  Forall (fun y => (y.2 <=? 1)%float = true) l ->
  descending l -> descending (insert_desc x l).
Proof.
  unfold descending. intros Hx Hl Hsorted.
  induction Hsorted as [|y l Hsorted IH Hy]; simpl.
  - repeat constructor.
  - apply Forall_cons in Hl as [Hy1 Hl].
    destruct (x.2 <? y.2)%float eqn:Hlt.
    + constructor; [by apply IH|].
      rewrite insert_desc_Permutation. constructor; [|done].
      by apply float_ltb_leb.
    + assert ((y.2 <=? x.2)%float = true) as Hyx
        by by eapply float_leb_total.
      constructor; [by constructor|]. constructor; [done|].
      eapply Forall_impl; [exact Hy|]. intros z Hz. simpl in Hz.
      by eapply float_leb_trans.
Qed.

Lemma sort_desc_descending (l : list (ascii * float)) :
  Forall (fun y => (y.2 <=? 1)%float = true) l -> descending (sort_desc l).
Proof.
  induction l as [|x l IH]; simpl; [constructor|].
  intros [Hx Hl]%Forall_cons. apply insert_desc_descending; [done| |by apply IH].
  by rewrite sort_desc_Permutation.
Qed.

(** The sort is stable: the entries of any one probability keep the
    order they had. *)
Lemma insert_desc_stable (q : float) (x : ascii * float) (l : list (ascii * float)) :
  filter (fun y => y.2 = q) (insert_desc x l) = filter (fun y => y.2 = q) (x :: l).
Proof.
  induction l as [|y l IH]; simpl; [done|].
  destruct (x.2 <? y.2)%float eqn:Hlt; [|done].
  apply float_ltb_neq in Hlt.
  rewrite (filter_cons _ y), IH, !(filter_cons _ x), (filter_cons _ y).
  destruct (decide (y.2 = q)), (decide (x.2 = q)); congruence.
Qed.

Lemma sort_desc_stable (q : float) (l : list (ascii * float)) :
  filter (fun y => y.2 = q) (sort_desc l) = filter (fun y => y.2 = q) l.
Proof.
  induction l as [|x l IH]; simpl; [done|].
  by rewrite insert_desc_stable, !(filter_cons _ x), IH.
Qed.

(** * The properties of the specification *)

(** C1 (round trip): for every non-empty symbol sequence [S], the encoder
    built from [S] encodes [S] to a bitstream that it decodes back to
    exactly [S]. *)
Theorem round_trip (S : str) :
  S <> [] ->
  exists self bits,
    __init__ S = Ok self /\ encode self = Ok bits /\ decode self bits = Ok S.
Proof.
  intros _. destruct (_build_codes_Ok S) as (table & Hinit & Ht).
  destruct (encode_Ok S table
              (fold_left (fun d '(char, prob) => dict_set d char prob)
                         (sort_desc (raw_probs S)) []))
    as (words & Henc & Hwords).
  { intros c Hc. by apply Ht. }
  eexists _, (concat words). split_and!; [exact Hinit | exact Henc |].
  unfold decode, decode_loop. cbn [codes].
  pose proof (decode_words S table [] Ht S words [] Hwords) as Hdec.
  rewrite (right_id_L [] (++)) in Hdec. by rewrite Hdec.
Qed.

Lemma round_trip_witness :
  lit "Hello, World!" <> [] /\
  exists self bits,
    __init__ (lit "Hello, World!") = Ok self /\ encode self = Ok bits /\
    decode self bits = Ok (lit "Hello, World!").
Proof. split; [done | apply round_trip; done]. Defined.

(** C2 (prefix-freedom): for every non-empty input the built code table
    is prefix-free: the code words of two distinct symbols of the table
    are not prefixes of each other, in either direction. *)
Theorem built_table_prefix_free (S : str) :
  S <> [] ->
  exists self,
    __init__ S = Ok self /\
    forall a b wa wb,
      (a, wa) ∈ self.(codes) -> (b, wb) ∈ self.(codes) -> a <> b ->
      ~ wa `prefix_of` wb /\ ~ wb `prefix_of` wa.
Proof.
  intros _. destruct (_build_codes_Ok S) as (table & Hinit & Hnd & _ & _ & Hp).
  eexists. split; [exact Hinit|]. cbn [codes].
  intros a b wa wb Ha%(elem_of_dict_get _ _ _ Hnd) Hb%(elem_of_dict_get _ _ _ Hnd) Hne.
  split; [by apply (Hp a b) | by apply (Hp b a)].
Qed.

Lemma built_table_prefix_free_witness :
  lit "Hello, World!" <> [] /\
  exists self,
    __init__ (lit "Hello, World!") = Ok self /\
    forall a b wa wb,
      (a, wa) ∈ self.(codes) -> (b, wb) ∈ self.(codes) -> a <> b ->
      ~ wa `prefix_of` wb /\ ~ wb `prefix_of` wa.
Proof. split; [done | apply built_table_prefix_free; done]. Defined.

(** C3 (coverage and uniqueness): for every non-empty input the keys of
    the built code table are exactly the distinct symbols of the input,
    each once; every code word is a non-empty sequence of binary digits;
    and no two symbols share a code word. *)
Theorem built_table_covers_alphabet (S : str) :
  S <> [] ->
  exists self,
    __init__ S = Ok self /\
    NoDup (dict_keys self.(codes)) /\
    (forall c, c ∈ dict_keys self.(codes) <-> c ∈ S) /\
    (forall c w, (c, w) ∈ self.(codes) -> w <> [] /\ binary w) /\
    (forall a b w, (a, w) ∈ self.(codes) -> (b, w) ∈ self.(codes) -> a = b).
Proof.
  intros _. destruct (_build_codes_Ok S) as (table & Hinit & Ht).
  eexists. split; [exact Hinit|]. cbn [codes].
  destruct Ht as (Hnd & Hk & Hw & Hp) eqn:E. clear E.
  split_and!; [done|done|..].
  - intros c w Hc%(elem_of_dict_get _ _ _ Hnd). by apply (Hw c).
  - intros a b w Ha%(elem_of_dict_get _ _ _ Hnd) Hb%(elem_of_dict_get _ _ _ Hnd).
    by apply (table_for_injective S table a b w).
Qed.

Lemma built_table_covers_alphabet_witness :
  lit "Hello, World!" <> [] /\
  exists self,
    __init__ (lit "Hello, World!") = Ok self /\
    NoDup (dict_keys self.(codes)) /\
    (forall c, c ∈ dict_keys self.(codes) <-> c ∈ lit "Hello, World!") /\
    (forall c w, (c, w) ∈ self.(codes) -> w <> [] /\ binary w) /\
    (forall a b w, (a, w) ∈ self.(codes) -> (b, w) ∈ self.(codes) -> a = b).
Proof. split; [done | apply built_table_covers_alphabet; done]. Defined.

(** C4, as the specification states it, fails: building from the empty
    sequence raises no error. *)
Lemma empty_input_raises_nothing : ~ exists e, __init__ (lit "") = Raise e.
Proof. intros [e He]. vm_compute in He. discriminate He. Qed.

(** C4 (amended): building raises no error on any sequence; from a
    zero-length sequence it returns an encoder whose code table and
    probability table are both empty. *)
Theorem empty_input_builds_empty_tables :
  __init__ (lit "") = Ok {| text := []; codes := []; probabilities := [] |} /\
  (forall (S : str) (e : exn), __init__ S <> Raise e).
Proof.
  split; [reflexivity|].
  intros S e He. destruct (_build_codes_Ok S) as (table & Hinit & _).
  rewrite Hinit in He. discriminate He.
Qed.

(** C5, as the specification states it, fails: on the table of ["aaaa"]
    the stream ["01"] leaves the accumulator ["1"], which is no code word,
    and [decode] returns the partial result ["a"]. *)
Lemma truncated_stream_not_reported :
  exists self,
    __init__ (lit "aaaa") = Ok self /\
    decode_loop self (lit "01") = Ok (lit "a", lit "1") /\
    dict_contains (reverse_of self.(codes)) (lit "1") = false /\
    decode self (lit "01") = Ok (lit "a").
Proof. eexists. split; [reflexivity|]. by vm_compute. Qed.

(** C5 (amended): [decode] raises no error on any bitstream: it returns
    the symbols whose code words were completed, and an accumulator left
    non-empty at the end of the input is dropped. *)
Theorem decode_never_fails (self : FanoEncoder) (bits : str) :
  exists decoded acc,
    decode_loop self bits = Ok (decoded, acc) /\
    decode self bits = Ok decoded.
Proof.
  destruct (decode_loop_total self.(codes) bits ([], [])) as ([decoded acc] & H).
  exists decoded, acc. unfold decode, decode_loop. by rewrite H.
Qed.

(** C6, as the specification states it, fails: on the ranked list of
    ["abc"] (three probabilities 1/3) the masses of [[0, 0]] and [[1, 2]]
    differ by as much as those of [[0, 1]] and [[2, 2]], so index [0] is
    the first to achieve the least difference; but [_med] returns [1],
    and the code table splits ["a"] and ["b"] from ["c"]. *)
Lemma split_point_not_first_of_tie :
  exists probs,
    _calculate_probabilities (lit "abc") = Ok probs /\
    _med probs 0 2 = Ok 1 /\
    mass_diff probs 0 2 0 = mass_diff probs 0 2 1 /\
    ~ first_minimum (mass_diff probs 0 2) 0 2 1 /\
    (self ← __init__ (lit "abc"); Ok self.(codes)) =
      Ok [("a"%char, lit "00"); ("b"%char, lit "01"); ("c"%char, lit "1")].
Proof.
  exists (sort_desc (raw_probs (lit "abc"))).
  split; [apply _calculate_probabilities_Ok|].
  split_and!; [by vm_compute | by vm_compute | | by vm_compute].
  intros (_ & _ & H). specialize (H 0 ltac:(lia)). vm_compute in H. done.
Qed.

(** C6 (amended): on an inclusive range [[b, e]] of valid indices,
    [_med] returns [b] when [b = e]; when [b < e] it returns an index [m]
    with [b <= m < e] that is the first, scanning upward from [b], to
    attain the least of the differences as the code computes them in
    binary64 arithmetic, [|L - (T - L)|], where [L] is the running
    left-to-right sum of the probabilities of [[b, m]] and [T] the sum
    over [[b, e]]. *)
Theorem split_point_first_computed_minimum
    (probs : list (ascii * float)) (b e : Z) :
  0 <= b -> b <= e -> e < Z.of_nat (length probs) ->
  exists m,
    _med probs b e = Ok m /\
    (b = e -> m = b) /\
    (b < e -> first_minimum (computed_diff probs (mass probs b e) b) b e m).
Proof.
  intros Hb Hbe He. destruct (decide (b = e)) as [->|Hne].
  - exists e. rewrite _med_degenerate by lia. split_and!; [done|done|lia].
  - destruct (_med_first_minimum probs b e) as (m & Hm & Hfirst); [lia..|].
    exists m. split_and!; [done|lia|done].
Qed.

Lemma split_point_first_computed_minimum_witness :
  (0 <= 0 /\ 0 <= 2 /\
   2 < Z.of_nat (length (sort_desc (raw_probs (lit "abc"))))) /\
  exists m,
    _med (sort_desc (raw_probs (lit "abc"))) 0 2 = Ok m /\
    (0 = 2 -> m = 0) /\
    (0 < 2 ->
     first_minimum
       (computed_diff (sort_desc (raw_probs (lit "abc")))
          (mass (sort_desc (raw_probs (lit "abc"))) 0 2) 0) 0 2 m).
Proof.
  split.
  - split_and!; [lia | lia | by vm_compute].
  - apply (split_point_first_computed_minimum
             (sort_desc (raw_probs (lit "abc"))) 0 2); [lia | lia | by vm_compute].
Defined.

(** C7 (single-symbol case): when the input consists of one symbol
    repeated, the code table holds that symbol alone, with code word
    ["0"]; the input encodes to as many ["0"] digits as it has symbols
    and these decode back to it.  In particular ["aaaa"] gets the table
    [{"a": "0"}], encodes to ["0000"], and ["0000"] decodes to ["aaaa"]. *)
Theorem single_symbol_case :
  (forall (c : ascii) (n : nat),
     exists self,
       __init__ (replicate (S n) c) = Ok self /\
       self.(codes) = [(c, lit "0")] /\
       encode self = Ok (replicate (S n) "0"%char) /\
       decode self (replicate (S n) "0"%char) = Ok (replicate (S n) c)) /\
  (exists self,
     __init__ (lit "aaaa") = Ok self /\
     self.(codes) = [("a"%char, lit "0")] /\
     encode self = Ok (lit "0000") /\
     decode self (lit "0000") = Ok (lit "aaaa")).
Proof.
  assert (forall (c : ascii) (n : nat),
     exists self,
       __init__ (replicate (S n) c) = Ok self /\
       self.(codes) = [(c, lit "0")] /\
       encode self = Ok (replicate (S n) "0"%char) /\
       decode self (replicate (S n) "0"%char) = Ok (replicate (S n) c)) as Hgen.
  { intros c n. destruct (single_symbol_table c n) as (p & Hinit).
    destruct (_build_codes_Ok (replicate (S n) c)) as (table & Hinit' & Ht).
    rewrite Hinit in Hinit'. injection Hinit' as <- _.
    eexists. split; [exact Hinit|]. cbn [codes]. split; [done|].
    assert (Forall2 (fun c' w => dict_get [(c, lit "0")] c' = Some w)
              (replicate (S n) c) (replicate (S n) (lit "0"))) as Hwords.
    { apply Forall2_replicate. simpl. by rewrite decide_True. }
    assert (concat (replicate (S n) (lit "0")) = replicate (S n) "0"%char) as Hcat.
    { clear. induction n as [|n IH]; [done|].
      change (replicate (S (S n)) (lit "0"))
        with (lit "0" :: replicate (S n) (lit "0")).
      cbn [concat]. by rewrite IH. }
    split.
    - unfold encode. cbn [text codes]. apply bind_Ok.
      exists (replicate (S n) (lit "0")). split; [|by rewrite Hcat].
      apply mapM_Ok_inv. eapply Forall2_impl; [exact Hwords|].
      intros c' w Hc'. unfold dict_getitem. by rewrite Hc'.
    - unfold decode, decode_loop. cbn [codes].
      pose proof (decode_words _ _ [] Ht _ _ [] Hwords) as Hdec.
      rewrite (right_id_L [] (++)), Hcat in Hdec. by rewrite Hdec. }
  split; [exact Hgen|]. apply (Hgen "a"%char 3%nat).
Qed.

(** C8, as the specification states it, fails: for a text of 49 distinct
    symbols every probability is the binary64 number nearest to 1/49,
    [5882252574524729 * 2^-58]; 49 of them do not add up to 1 exactly,
    and their left-to-right binary64 sum is not [1.0] either. *)
Lemma probabilities_do_not_sum_to_one :
  exists probs,
    _calculate_probabilities text49 = Ok probs /\
    Prim2SF <$> probs.*2
      = replicate 49 (S754_finite false 5882252574524729 (-58)) /\
    49 * 5882252574524729 <> 2 ^ 58 /\
    sum probs.*2 <> 1%float.
Proof.
  exists (sort_desc (raw_probs text49)).
  split; [apply _calculate_probabilities_Ok|]. split_and!.
  - vm_compute. reflexivity.
  - by vm_compute.
  - intros H. apply (f_equal (fun x => (x =? 1)%float)) in H.
    vm_compute in H. done.
Qed.

(** C8 (amended): for every non-empty input sequence (of fewer than
    [2^53] symbols) the ranked list holds, for each distinct symbol, the
    binary64 quotient of its count by the length of the sequence; every
    such probability lies in (0, 1]; the counts add up to the length, so
    that the probabilities add up to 1 up to rounding only; and the list
    is sorted by descending probability, entries of equal probability
    keeping the order of first occurrence of their symbols. *)
Theorem probabilities_ranked (S : str) :
  S <> [] -> Z.of_nat (length S) < 2 ^ 53 ->
  exists ranked,
    _calculate_probabilities S = Ok ranked /\
    NoDup (first_occurrences S) /\
    (forall c, c ∈ first_occurrences S <-> c ∈ S) /\
    ranked ≡ₚ (fun c => (c, probability_of S c)) <$> first_occurrences S /\
    (forall c p, (c, p) ∈ ranked ->
       (0 <? p)%float = true /\ (p <=? 1)%float = true) /\
    Zsum ((fun c => occurrences c S) <$> first_occurrences S)
      = Z.of_nat (length S) /\
    descending ranked /\
    (forall q,
       filter (fun x => x.2 = q) ranked =
       filter (fun x => x.2 = q)
              ((fun c => (c, probability_of S c)) <$> first_occurrences S)).
Proof.
  intros _ Hlen. exists (sort_desc (raw_probs S)).
  assert (forall c p, (c, p) ∈ raw_probs S ->
            (0 <? p)%float = true /\ (p <=? 1)%float = true) as Hunit.
  { intros c p. rewrite raw_probs_eq.
    intros (c' & [= -> ->] & Hc)%list_elem_of_fmap.
    apply (proj1 (elem_of_first_occurrences S c')) in Hc.
    apply float_ratio_unit; [|done].
    split; [by apply occurrences_pos | apply occurrences_le]. }
  split_and!.
  - apply _calculate_probabilities_Ok.
  - apply NoDup_first_occurrences.
  - apply elem_of_first_occurrences.
  - by rewrite sort_desc_Permutation, raw_probs_eq.
  - intros c p. rewrite sort_desc_Permutation. apply Hunit.
  - apply Zsum_occurrences.
  - apply sort_desc_descending, Forall_forall. intros [c p] Hin.
    by apply (Hunit c p).
  - intros q. by rewrite sort_desc_stable, raw_probs_eq.
Qed.

Lemma probabilities_ranked_witness :
  (lit "Hello, World!" <> [] /\
   Z.of_nat (length (lit "Hello, World!")) < 2 ^ 53) /\
  exists ranked,
    _calculate_probabilities (lit "Hello, World!") = Ok ranked /\
    NoDup (first_occurrences (lit "Hello, World!")) /\
    (forall c, c ∈ first_occurrences (lit "Hello, World!")
               <-> c ∈ lit "Hello, World!") /\
    ranked ≡ₚ (fun c => (c, probability_of (lit "Hello, World!") c))
                <$> first_occurrences (lit "Hello, World!") /\
    (forall c p, (c, p) ∈ ranked ->
       (0 <? p)%float = true /\ (p <=? 1)%float = true) /\
    Zsum ((fun c => occurrences c (lit "Hello, World!"))
            <$> first_occurrences (lit "Hello, World!"))
      = Z.of_nat (length (lit "Hello, World!")) /\
    descending ranked /\
    (forall q,
       filter (fun x => x.2 = q) ranked =
       filter (fun x => x.2 = q)
              ((fun c => (c, probability_of (lit "Hello, World!") c))
                 <$> first_occurrences (lit "Hello, World!"))).
Proof.
  split; [split; [done | by vm_compute]|].
  apply probabilities_ranked; [done | by vm_compute].
Defined.

(** C9, as the specification states it, fails: the text
    ["aaaaaaaabbbbccd"] has four distinct symbols, with counts 8, 4, 2
    and 1, and the recursion nests three calls below the outermost one,
    more than [log2 4 = 2]: a budget of three frames overflows. *)
Lemma depth_exceeds_log2 :
  alphabet_size (lit "aaaaaaaabbbbccd") = 4%nat /\
  build_depth (lit "aaaaaaaabbbbccd") = Ok 3%nat /\
  ~ (3 <= Nat.log2_up 4)%nat /\
  (probs ← _calculate_probabilities (lit "aaaaaaaabbbbccd");
   _fano_recursive 3 probs [] 0 3 []) = Raise RecursionError.
Proof.
  split_and!; [by vm_compute | by vm_compute | vm_compute; lia | by vm_compute].
Qed.

(** C9 (amended): for every input sequence the recursion of the code
    assignment terminates, and the number [d] of nested recursive calls
    below the outermost call is at most the alphabet size minus one,
    whatever the length of the sequence; the recursion completes under
    exactly the budgets of more than [d] frames. *)
Theorem depth_below_alphabet_size (S : str) :
  exists probs d,
    _calculate_probabilities S = Ok probs /\
    build_depth S = Ok d /\
    (d <= alphabet_size S - 1)%nat /\
    (forall fuel,
       (d < fuel)%nat <->
       exists codes',
         _fano_recursive fuel probs [] 0 (Z.of_nat (length probs) - 1) []
           = Ok codes').
Proof.
  exists (sort_desc (raw_probs S)).
  unfold build_depth. rewrite _calculate_probabilities_Ok.
  cbn [mbind result_bind]. set (probs := sort_desc (raw_probs S)).
  destruct (_fano_depth_bound (recursion_limit probs) probs 0
              (Z.of_nat (length probs) - 1)) as (d & Hd & Hbound);
    [lia | lia | unfold recursion_limit; lia..|].
  exists d. split_and!; [done|done| |].
  - rewrite <- (ranked_length S). fold probs. lia.
  - intros fuel.
    destruct (_fano_depth_fuel _ probs 0 (Z.of_nat (length probs) - 1) d
                ltac:(lia) ltac:(lia) Hd fuel [] []) as [Hok Hno].
    split; [exact Hok|]. intros [codes' Hcodes'].
    destruct (decide (d < fuel)%nat) as [|Hle]; [done|].
    rewrite Hno in Hcodes' by lia. done.
Qed.

(** C10: for every text an encoder is constructed from, the lookup of
    each character of the text in the code table succeeds, and [encode]
    returns a bitstream: the missing-key error cannot occur. *)
Theorem encode_never_fails (S : str) :
  exists self bits,
    __init__ S = Ok self /\
    (forall c, c ∈ S -> exists w, dict_getitem self.(codes) c = Ok w) /\
    encode self = Ok bits.
Proof.
  destruct (_build_codes_Ok S) as (table & Hinit & Ht).
  destruct (encode_Ok S table
              (fold_left (fun d '(char, prob) => dict_set d char prob)
                         (sort_desc (raw_probs S)) []))
    as (words & Henc & Hwords).
  { intros c Hc. by apply Ht. }
  eexists _, _. split_and!; [exact Hinit| |exact Henc]. cbn [codes].
  intros c Hc. destruct Ht as (_ & Hk & _).
  apply Hk, dict_get_is_Some in Hc as [w Hw].
  exists w. unfold dict_getitem. by rewrite Hw.
Qed.

(** * Further properties of the code *)

(** ** The words of the table, by rank *)

Lemma fano_words_spec (fuel : nat) : forall probs b e cc,
  NoDup probs.*1 -> 0 <= b -> e < Z.of_nat (length probs) ->
  (0 < fuel)%nat -> e - b < Z.of_nat fuel ->
  exists ws,
    fano_words fuel probs b e cc = Ok ws /\
    length ws = Z.to_nat (e - b + 1) /\
    forall codes codes',
      _fano_recursive fuel probs codes b e cc = Ok codes' ->
      forall i p, b <= i <= e -> probs !! Z.to_nat i = Some p ->
        dict_get codes' p.1 = ws !! Z.to_nat (i - b).
Proof.
  induction fuel as [|fuel IH]; intros probs b e cc Hnd Hb He Hpos Hfuel; [lia|].
  simpl. destruct (decide (e < b)) as [Heb|Heb].
  { exists []. split_and!; [done|simpl; lia|]. intros; lia. }
  destruct (decide (e = b)) as [->|Hne].
  { eexists. split_and!; [done|simpl; lia|].
    intros codes codes' Hrun i p Hi Hp. assert (i = b) as -> by lia.
    destruct (py_index_Ok probs b) as (p' & Hp' & Hlook); [lia|].
    rewrite Hp' in Hrun. simpl in Hrun. injection Hrun as <-.
    assert (p' = p) as -> by congruence.
    rewrite dict_get_set_eq. by replace (Z.to_nat (b - b)) with O by lia. }
  destruct (_med_in_range probs b e) as (m & -> & Hm); [lia..|]. simpl.
  destruct (IH probs b m (cc ++ lit "0")) as (wl & -> & Hlenl & Hwl); [done|lia..|].
  destruct (IH probs (m + 1) e (cc ++ lit "1")) as (wr & -> & Hlenr & Hwr);
    [done|lia..|].
  simpl. exists (wl ++ wr). split_and!; [done|rewrite length_app; lia|].
  intros codes codes' Hrun i p Hi Hp.
  inv_bind Hrun. rename a into codes1.
  inv_bind Hrun. rename a into codes2.
  inv_bind Hrun. rename a into codes3, Ha1 into Hleft.
  destruct (decide (i <= m)) as [Hil|Hir].
  - destruct (_fano_recursive_spec fuel probs codes3 (m + 1) e (cc ++ lit "1"))
      as (codes4 & Hrun4 & (_ & _ & Hframe) & _); [done|lia..|].
    rewrite Hrun in Hrun4. injection Hrun4 as <-.
    rewrite Hframe.
    + rewrite (Hwl codes2 codes3 Hleft i p) by (done || lia).
      rewrite lookup_app_l by lia. done.
    + intros Hin. eapply (in_range_disjoint probs b m e p.1); [done..| |exact Hin].
      exists i, p.2. split; [lia|]. by destruct p.
  - rewrite (Hwr codes3 codes' Hrun i p) by (done || lia).
    rewrite lookup_app_r by lia. f_equal. lia.
Qed.

(** An induction principle for the words of a range: a property of the
    words of a single index, kept by the split, holds of every range. *)
Lemma fano_words_ind (P : Z -> Z -> str -> list str -> Prop) :
  (forall b cc, P b b cc [match cc with [] => lit "0" | _ => cc end]) ->
  (forall b m e cc l r,
     b <= m -> m < e ->
     P b m (cc ++ lit "0") l -> P (m + 1) e (cc ++ lit "1") r ->
     P b e cc (l ++ r)) ->
  forall fuel probs b e cc ws,
    0 <= b -> b <= e -> e < Z.of_nat (length probs) ->
    fano_words fuel probs b e cc = Ok ws -> P b e cc ws.
Proof.
  intros Hleaf Hnode.
  induction fuel as [|fuel IH]; intros probs b e cc ws Hb Hbe He Hws; [done|].
  simpl in Hws. rewrite decide_False in Hws by lia.
  destruct (decide (e = b)) as [->|Hne].
  { injection Hws as <-. apply Hleaf. }
  destruct (_med_in_range probs b e) as (m & Hmed & Hm); [lia..|].
  rewrite Hmed in Hws. simpl in Hws.
  inv_bind Hws. rename a into l, Ha into Hl.
  inv_bind Hws. rename a into r, Ha into Hr. injection Hws as <-.
  apply (Hnode b m e); [lia|lia|..].
  - apply (IH probs); [lia..|done].
  - apply (IH probs); [lia..|done].
Qed.

Lemma leaf_word_prefix (cc : str) :
  cc `prefix_of` match cc with [] => lit "0" | _ => cc end.
Proof. destruct cc; [apply prefix_nil | done]. Qed.

Lemma leaf_word_nonempty (cc : str) :
  cc <> [] -> match cc with [] => lit "0" | _ => cc end = cc.
Proof. by destruct cc. Qed.

Lemma leaf_word_length (cc : str) :
  Z.of_nat (length match cc with [] => lit "0" | _ => cc end)
  = Z.max (Z.of_nat (length cc)) 1.
Proof. destruct cc; [done | simpl; lia]. Qed.

Lemma Forall_prefix_weaken (cc d : str) (ws : list str) :
  Forall (fun w => (cc ++ d) `prefix_of` w) ws ->
  Forall (fun w => cc `prefix_of` w) ws.
Proof.
  intros H. eapply Forall_impl; [exact H|]. intros w Hw. simpl in Hw.
  etrans; [|exact Hw]. by apply prefix_app_r.
Qed.

Lemma fano_words_extend fuel probs b e cc ws :
  0 <= b -> b <= e -> e < Z.of_nat (length probs) ->
  fano_words fuel probs b e cc = Ok ws ->
  Forall (fun w => cc `prefix_of` w) ws.
Proof.
  apply (fano_words_ind (fun _ _ cc ws => Forall (fun w => cc `prefix_of` w) ws)).
  - intros _ cc'. constructor; [apply leaf_word_prefix | constructor].
  - intros _ _ _ cc' l r _ _ Hl Hr. apply Forall_app.
    split; eapply Forall_prefix_weaken; eassumption.
Qed.

Lemma fano_words_length fuel probs b e cc ws :
  0 <= b -> b <= e -> e < Z.of_nat (length probs) ->
  fano_words fuel probs b e cc = Ok ws ->
  Forall (fun w => Z.of_nat (length w)
                   <= Z.of_nat (length cc) + Z.max (e - b) (1 - Z.of_nat (length cc)))
         ws.
Proof.
  apply (fano_words_ind (fun b e cc ws =>
    Forall (fun w => Z.of_nat (length w)
                     <= Z.of_nat (length cc) + Z.max (e - b) (1 - Z.of_nat (length cc)))
           ws)).
  - intros b' cc'. constructor; [|constructor].
    rewrite leaf_word_length. lia.
  - intros b' m e' cc' l r Hbm Hme Hl Hr. apply Forall_app. split.
    + eapply Forall_impl; [apply Hl|]. intros w Hw. simpl in Hw.
      rewrite length_app in Hw. simpl in Hw. lia.
    + eapply Forall_impl; [apply Hr|]. intros w Hw. simpl in Hw.
      rewrite length_app in Hw. simpl in Hw. lia.
Qed.

Lemma Zsum_app (l r : list Z) : Zsum (l ++ r) = Zsum l + Zsum r.
Proof. unfold Zsum. induction l as [|x l IH]; simpl; lia. Qed.

Lemma snoc_nonempty (cc d : str) : d <> [] -> cc ++ d <> [].
Proof. intros Hd Heq. apply app_eq_nil in Heq. tauto. Qed.

(** The Kraft sum of the words of a range, scaled by [2^D]. *)
Lemma fano_words_kraft fuel probs b e cc ws :
  0 <= b -> b <= e -> e < Z.of_nat (length probs) ->
  fano_words fuel probs b e cc = Ok ws ->
  b < e \/ cc <> [] ->
  forall D, Z.of_nat (length cc) + (e - b) <= D ->
    Zsum ((fun w => 2 ^ (D - Z.of_nat (length w))) <$> ws)
    = 2 ^ (D - Z.of_nat (length cc)).
Proof.
  apply (fano_words_ind (fun b e cc ws =>
    b < e \/ cc <> [] ->
    forall D, Z.of_nat (length cc) + (e - b) <= D ->
      Zsum ((fun w => 2 ^ (D - Z.of_nat (length w))) <$> ws)
      = 2 ^ (D - Z.of_nat (length cc)))).
  - intros b' cc' [?|Hcc] D HD; [lia|].
    rewrite leaf_word_nonempty by done. unfold Zsum. simpl. lia.
  - intros b' m e' cc' l r Hbm Hme Hl Hr _ D HD.
    rewrite fmap_app, Zsum_app.
    rewrite Hl, Hr; rewrite ?length_app; simpl; try lia.
    + replace (D - Z.of_nat (length cc')) with (Z.succ (D - Z.of_nat (length cc' + 1)))
        by lia.
      rewrite Z.pow_succ_r by lia. lia.
    + right. by apply snoc_nonempty.
    + right. by apply snoc_nonempty.
Qed.

(** Two words of a range part at a digit that is ["0"] in the word of
    the lower index and ["1"] in the word of the higher. *)
Lemma fano_words_ordered fuel probs b e cc ws :
  0 <= b -> b <= e -> e < Z.of_nat (length probs) ->
  fano_words fuel probs b e cc = Ok ws ->
  forall i j wi wj,
    ws !! i = Some wi -> ws !! j = Some wj -> (i < j)%nat ->
    exists p s1 s2,
      wi = cc ++ p ++ "0"%char :: s1 /\ wj = cc ++ p ++ "1"%char :: s2.
Proof.
  intros Hb Hbe He Hws.
  cut (Forall (fun w => cc `prefix_of` w) ws /\
    forall i j wi wj,
      ws !! i = Some wi -> ws !! j = Some wj -> (i < j)%nat ->
      exists p s1 s2,
        wi = cc ++ p ++ "0"%char :: s1 /\ wj = cc ++ p ++ "1"%char :: s2);
    [tauto|].
  revert Hb Hbe He Hws.
  apply (fano_words_ind (fun b e cc ws =>
    Forall (fun w => cc `prefix_of` w) ws /\
    forall i j wi wj,
      ws !! i = Some wi -> ws !! j = Some wj -> (i < j)%nat ->
      exists p s1 s2,
        wi = cc ++ p ++ "0"%char :: s1 /\ wj = cc ++ p ++ "1"%char :: s2)).
  - intros _ cc'. split.
    + constructor; [apply leaf_word_prefix | constructor].
    + intros i j wi wj Hi Hj Hij.
      apply lookup_lt_Some in Hj. simpl in Hj. lia.
  - intros _ _ _ cc' l r _ _ [Hel Hol] [Her Hor]. split.
    + apply Forall_app. split; eapply Forall_prefix_weaken; eassumption.
    + intros i j wi wj Hi Hj Hij.
      destruct (decide (j < length l)%nat) as [Hjl|Hjr].
      * rewrite lookup_app_l in Hi, Hj by lia.
        destruct (Hol i j wi wj Hi Hj Hij) as (p & s1 & s2 & -> & ->).
        exists (lit "0" ++ p), s1, s2. by rewrite <- !(assoc_L (++)).
      * rewrite lookup_app_r in Hj by lia.
        destruct (decide (i < length l)%nat) as [Hil|Hir].
        -- rewrite lookup_app_l in Hi by lia.
           apply list_elem_of_lookup_2 in Hi, Hj.
           rewrite Forall_forall in Hel, Her.
           destruct (Hel wi Hi) as [s1 ->], (Her wj Hj) as [s2 ->].
           exists [], s1, s2. by rewrite <- !(assoc_L (++)).
        -- rewrite lookup_app_r in Hi by lia.
           destruct (Hor _ _ wi wj Hi Hj) as (p & s1 & s2 & -> & ->); [lia|].
           exists (lit "1" ++ p), s1, s2. by rewrite <- !(assoc_L (++)).
Qed.

Lemma proper_prefix_snoc (w u d : str) :
  d <> [] -> (u ++ d) `prefix_of` w -> u `prefix_of` w /\ u <> w.
Proof.
  intros Hd [t ->]. rewrite <- (assoc_L (++)). split; [by apply prefix_app_r|].
  intros Heq. apply (f_equal length) in Heq. rewrite !length_app in Heq.
  destruct d; [done|]. simpl in Heq. lia.
Qed.

(** The words of a range leave no gap: a binary continuation of
    [current_code] either starts with a word or is the proper start of
    one. *)
Lemma fano_words_complete fuel probs b e cc ws :
  0 <= b -> b <= e -> e < Z.of_nat (length probs) ->
  fano_words fuel probs b e cc = Ok ws ->
  b < e \/ cc <> [] ->
  forall s, binary s ->
    (exists w, w ∈ ws /\ w `prefix_of` cc ++ s) \/
    (exists w, w ∈ ws /\ cc ++ s `prefix_of` w /\ cc ++ s <> w).
Proof.
  intros Hb Hbe He Hws.
  cut (Forall (fun w => cc `prefix_of` w) ws /\
    (b < e \/ cc <> [] ->
     forall s, binary s ->
       (exists w, w ∈ ws /\ w `prefix_of` cc ++ s) \/
       (exists w, w ∈ ws /\ cc ++ s `prefix_of` w /\ cc ++ s <> w)));
    [tauto|].
  revert Hb Hbe He Hws.
  apply (fano_words_ind (fun b e cc ws =>
    Forall (fun w => cc `prefix_of` w) ws /\
    (b < e \/ cc <> [] ->
     forall s, binary s ->
       (exists w, w ∈ ws /\ w `prefix_of` cc ++ s) \/
       (exists w, w ∈ ws /\ cc ++ s `prefix_of` w /\ cc ++ s <> w)))).
  - intros b' cc'. split.
    + constructor; [apply leaf_word_prefix | constructor].
    + intros [?|Hcc] s Hs; [lia|].
      rewrite leaf_word_nonempty by done.
      left. exists cc'. split; [left | by apply prefix_app_r].
  - intros b' m e' cc' l r _ _ [Hel Hcl] [Her Hcr]. split.
    + apply Forall_app. split; eapply Forall_prefix_weaken; eassumption.
    + intros _ s Hs.
      assert (cc' ++ lit "0" <> []) as Hne0 by by apply snoc_nonempty.
      assert (cc' ++ lit "1" <> []) as Hne1 by by apply snoc_nonempty.
      destruct s as [|c s]; [|apply Forall_cons in Hs as [Hc Hs]].
      * right. rewrite (right_id_L [] (++)).
        destruct l as [|w l].
        { destruct (Hcl (or_intror Hne0) [] ltac:(constructor))
            as [(w & Hw & _)|(w & Hw & _)]; by apply elem_of_nil in Hw. }
        exists w. split; [left|].
        apply Forall_cons in Hel as [Hw _].
        by apply (proper_prefix_snoc w cc' (lit "0")).
      * destruct Hc as [-> | ->].
        -- destruct (Hcl (or_intror Hne0) s Hs) as [(w & Hw & Hpre)|(w & Hw & Hpre & Hneq)].
           ++ left. exists w. split; [apply elem_of_app; by left|].
              by rewrite <- (assoc_L (++)) in Hpre.
           ++ right. exists w. split; [apply elem_of_app; by left|].
              by rewrite <- (assoc_L (++)) in Hpre, Hneq.
        -- destruct (Hcr (or_intror Hne1) s Hs) as [(w & Hw & Hpre)|(w & Hw & Hpre & Hneq)].
           ++ left. exists w. split; [apply elem_of_app; by right|].
              by rewrite <- (assoc_L (++)) in Hpre.
           ++ right. exists w. split; [apply elem_of_app; by right|].
              by rewrite <- (assoc_L (++)) in Hpre, Hneq.
Qed.

(** ** The order of the keys of the table *)

Lemma dict_keys_set_present {V : Type} (d : dict ascii V) k v :
  k ∈ dict_keys d -> dict_keys (dict_set d k v) = dict_keys d.
Proof. intros Hk. rewrite dict_keys_set. by rewrite decide_True. Qed.

Lemma dict_keys_set_fresh {V : Type} (d : dict ascii V) k v :
  k ∉ dict_keys d -> dict_keys (dict_set d k v) = dict_keys d ++ [k].
Proof. intros Hk. rewrite dict_keys_set. by rewrite decide_False. Qed.

Lemma assign_range_keys_present probs code (n : nat) : forall lo hi codes codes',
  Z.to_nat (hi - lo) = n -> 0 <= lo -> hi <= Z.of_nat (length probs) ->
  (forall i p, lo <= i < hi -> probs !! Z.to_nat i = Some p ->
     p.1 ∈ dict_keys codes) ->
  assign_range probs code lo hi codes = Ok codes' ->
  dict_keys codes' = dict_keys codes.
Proof.
  unfold assign_range.
  induction n as [|n IH]; intros lo hi codes codes' Hn Hlo Hhi Hin.
  - rewrite range_nil by lia. simpl. by intros [= <-].
  - rewrite range_cons by lia. simpl.
    destruct (py_index_Ok probs lo) as ([k p] & -> & Hk); [lia|]. simpl.
    assert (k ∈ dict_keys codes) as Hpres by (apply (Hin lo (k, p)); [lia|done]).
    intros H. apply IH in H; [|lia..|].
    + by rewrite H, dict_keys_set_present.
    + intros i q Hi Hq. rewrite dict_keys_set_present by done.
      apply (Hin i q); [lia|done].
Qed.

Lemma NoDup_lookup_not_in_take {A : Type} (l : list A) (i : nat) (x : A) :
  NoDup l -> l !! i = Some x -> x ∉ take i l.
Proof.
  intros Hnd Hx Hin. rewrite <- (take_drop_middle l i x Hx) in Hnd.
  apply NoDup_app in Hnd as (_ & Hdis & _). apply (Hdis x Hin). left.
Qed.

Lemma assign_range_keys_fresh probs code (n : nat) : forall lo hi codes codes',
  Z.to_nat (hi - lo) = n -> 0 <= lo -> lo <= hi -> hi <= Z.of_nat (length probs) ->
  NoDup probs.*1 ->
  dict_keys codes = take (Z.to_nat lo) probs.*1 ->
  assign_range probs code lo hi codes = Ok codes' ->
  dict_keys codes' = take (Z.to_nat hi) probs.*1.
Proof.
  unfold assign_range.
  induction n as [|n IH]; intros lo hi codes codes' Hn Hlo Hle Hhi Hnd Hkeys.
  - rewrite range_nil by lia. simpl. intros [= <-].
    rewrite Hkeys. f_equal. lia.
  - rewrite range_cons by lia. simpl.
    destruct (py_index_Ok probs lo) as ([k p] & -> & Hk); [lia|]. simpl.
    assert (probs.*1 !! Z.to_nat lo = Some k) as Hk1
      by by rewrite list_lookup_fmap, Hk.
    intros H. apply IH in H; [done|lia..|done|].
    rewrite dict_keys_set_fresh, Hkeys.
    + replace (Z.to_nat (lo + 1)) with (S (Z.to_nat lo)) by lia.
      by erewrite take_S_r.
    + rewrite Hkeys. by apply NoDup_lookup_not_in_take.
Qed.

Lemma _fano_recursive_keys_present (fuel : nat) : forall probs codes b e cc codes',
  0 <= b -> e < Z.of_nat (length probs) ->
  (forall i p, b <= i <= e -> probs !! Z.to_nat i = Some p ->
     p.1 ∈ dict_keys codes) ->
  _fano_recursive fuel probs codes b e cc = Ok codes' ->
  dict_keys codes' = dict_keys codes.
Proof.
  induction fuel as [|fuel IH]; intros probs codes b e cc codes' Hb He Hin;
    [done|].
  simpl. destruct (decide (e < b)) as [Heb|Heb]; [by intros [= <-]|].
  destruct (decide (e = b)) as [->|Hne].
  { destruct (py_index_Ok probs b) as ([k p] & -> & Hk); [lia|]. simpl.
    intros [= <-]. apply dict_keys_set_present.
    apply (Hin b (k, p)); [lia|done]. }
  destruct (_med_in_range probs b e) as (m & -> & Hm); [lia..|]. simpl.
  destruct (assign_range probs (cc ++ lit "0") b (m + 1) codes)
    as [codes1|] eqn:H1; [|done]. simpl.
  destruct (assign_range probs (cc ++ lit "1") (m + 1) (e + 1) codes1)
    as [codes2|] eqn:H2; [|done]. simpl.
  destruct (_fano_recursive fuel probs codes2 b m (cc ++ lit "0"))
    as [codes3|] eqn:H3; [|done]. simpl.
  intros H4.
  apply (assign_range_keys_present _ _ _ _ _ _ _ eq_refl) in H1;
    [|lia..|intros i p Hi; apply Hin; lia].
  apply (assign_range_keys_present _ _ _ _ _ _ _ eq_refl) in H2;
    [|lia..|intros i p Hi; rewrite H1; apply Hin; lia].
  apply IH in H3; [|lia..|intros i p Hi; rewrite H2, H1; apply Hin; lia].
  apply IH in H4; [|lia..|intros i p Hi; rewrite H3, H2, H1; apply Hin; lia].
  by rewrite H4, H3, H2, H1.
Qed.

(** The keys of the table [_build_codes] fills are the ranked symbols,
    in the order of the ranking. *)
Lemma built_codes_keys probs codes' :
  NoDup probs.*1 ->
  _fano_recursive (recursion_limit probs) probs [] 0
    (Z.of_nat (length probs) - 1) [] = Ok codes' ->
  dict_keys codes' = probs.*1.
Proof.
  intros Hnd. unfold recursion_limit.
  set (e := Z.of_nat (length probs) - 1).
  assert (take (Z.to_nat (e + 1)) probs.*1 = probs.*1) as Hall.
  { apply take_ge. rewrite length_fmap. lia. }
  simpl. destruct (decide (e < 0)) as [Heb|Heb].
  { intros [= <-]. destruct probs; [done|simpl in *; lia]. }
  destruct (decide (e = 0)) as [He0|Hne].
  { destruct (py_index_Ok probs 0) as ([k p] & -> & Hk); [lia|]. simpl.
    intros [= <-]. rewrite <- Hall, He0.
    destruct probs as [|q probs]; [done|]. by injection Hk as ->. }
  destruct (_med_in_range probs 0 e) as (m & -> & Hm); [lia..|]. simpl.
  destruct (assign_range probs (lit "0") 0 (m + 1) []) as [codes1|] eqn:H1;
    [|done]. simpl.
  destruct (assign_range probs (lit "1") (m + 1) (e + 1) codes1)
    as [codes2|] eqn:H2; [|done]. simpl.
  destruct (_fano_recursive (length probs) probs codes2 0 m (lit "0"))
    as [codes3|] eqn:H3; [|done]. simpl.
  intros H4.
  apply (assign_range_keys_fresh _ _ _ _ _ _ _ eq_refl) in H1;
    [|lia..|done|done].
  apply (assign_range_keys_fresh _ _ _ _ _ _ _ eq_refl) in H2;
    [|lia..|done|done].
  rewrite Hall in H2.
  assert (forall i p, 0 <= i <= e -> probs !! Z.to_nat i = Some p ->
            p.1 ∈ dict_keys codes2) as Hin.
  { intros i p Hi Hp. rewrite H2. apply (list_elem_of_lookup_2 _ (Z.to_nat i)).
    by rewrite list_lookup_fmap, Hp. }
  apply _fano_recursive_keys_present in H3;
    [|lia..|intros i p Hi; apply Hin; lia].
  apply _fano_recursive_keys_present in H4;
    [|lia..|intros i p Hi; rewrite H3; apply Hin; lia].
  by rewrite H4, H3, H2.
Qed.

(** ** The two tables of the encoder *)

Lemma dict_set_fresh {V : Type} (d : dict ascii V) k v :
  k ∉ dict_keys d -> dict_set d k v = d ++ [(k, v)].
Proof.
  unfold dict_keys. induction d as [|[k' v'] d IH]; [done|].
  rewrite fmap_cons. cbn [fst]. intros Hk. apply not_elem_of_cons in Hk as [Hne Hk].
  cbn [dict_set]. rewrite decide_False by done. simpl. by rewrite IH.
Qed.

Lemma fold_dict_set_fresh {V : Type} (l : list (ascii * V)) : forall acc,
  NoDup (acc ++ l).*1 ->
  fold_left (fun d '(char, prob) => dict_set d char prob) l acc = acc ++ l.
Proof.
  induction l as [|[k v] l IH]; intros acc Hnd; simpl.
  - by rewrite (right_id_L [] (++)).
  - rewrite dict_set_fresh.
    + rewrite IH; rewrite <- (assoc_L (++)); done.
    + rewrite fmap_app in Hnd. apply NoDup_app in Hnd as (_ & Hdis & _).
      intros Hin. apply (Hdis k Hin). rewrite fmap_cons. left.
Qed.

(** The encoder [__init__] returns, with its code words in the order of
    the ranking. *)
Lemma __init___words (txt : str) :
  let ranked := sort_desc (raw_probs txt) in
  exists ws,
    __init__ txt = Ok {| text := txt; codes := zip ranked.*1 ws;
                         probabilities := ranked |} /\
    fano_words (recursion_limit ranked) ranked 0
      (Z.of_nat (length ranked) - 1) [] = Ok ws /\
    length ws = length ranked.
Proof.
  intros ranked.
  assert (NoDup ranked.*1) as Hnd by apply NoDup_ranked_keys.
  destruct (_build_codes_Ok txt) as (table & Hinit & Ht).
  fold ranked in Hinit.
  rewrite (fold_dict_set_fresh ranked []) in Hinit by done.
  rewrite app_nil_l in Hinit.
  destruct (fano_words_spec (recursion_limit ranked) ranked 0
              (Z.of_nat (length ranked) - 1) [])
    as (ws & Hws & Hlen & Hget);
    [done | lia | lia | unfold recursion_limit; lia
    | unfold recursion_limit; lia |].
  replace (Z.to_nat (Z.of_nat (length ranked) - 1 - 0 + 1)) with (length ranked)
    in Hlen by lia.
  exists ws. split_and!; [|done|done].
  rewrite Hinit. do 2 f_equal.
  assert (_fano_recursive (recursion_limit ranked) ranked [] 0
            (Z.of_nat (length ranked) - 1) [] = Ok table) as Hrec.
  { revert Hinit. unfold __init__, _build_codes. cbn [text codes probabilities].
    rewrite _calculate_probabilities_Ok. cbn [mbind result_bind]. fold ranked.
    destruct (_fano_recursive _ ranked [] 0 _ []) as [t|]; [|done].
    simpl. by intros [= ->]. }
  pose proof (built_codes_keys ranked table Hnd Hrec) as Hkeys.
  rewrite (dict_eq_fmap table []) by apply Ht. rewrite Hkeys.
  apply list_eq. intros i. rewrite list_lookup_fmap, lookup_zip_with.
  rewrite list_lookup_fmap.
  destruct (ranked !! i) as [p|] eqn:Hp; [|done]. simpl.
  assert (i < length ranked)%nat as Hi by by eapply lookup_lt_Some.
  rewrite (Hget [] table Hrec (Z.of_nat i) p); [|lia|by rewrite Nat2Z.id].
  replace (Z.to_nat (Z.of_nat i - 0)) with i by lia.
  destruct (lookup_lt_is_Some_2 ws i) as [w Hw]; [lia|].
  by rewrite Hw.
Qed.

(** ** The decoding loop on an arbitrary stream *)

Lemma for_each_app {A S : Type} (body : S -> A -> result S) (xs ys : list A) :
  forall st,
    for_each body (xs ++ ys) st = st' ← for_each body xs st; for_each body ys st'.
Proof.
  induction xs as [|x xs IH]; intros st; simpl; [done|].
  destruct (body st x) as [st1|]; simpl; [apply IH | done].
Qed.

(** One step of the loop: the accumulator with the new bit is a code
    word, and its symbol is emitted, or it is none, and it is kept. *)
Lemma decode_body_cases (table : dict ascii str) decoded acc bit :
  (exists c, (c, acc ++ [bit]) ∈ table /\
     decode_body (reverse_of table) (decoded, acc) bit = Ok (decoded ++ [c], [])) \/
  ((forall c, (c, acc ++ [bit]) ∉ table) /\
     decode_body (reverse_of table) (decoded, acc) bit = Ok (decoded, acc ++ [bit])).
Proof.
  unfold decode_body, dict_contains, dict_getitem. case_bool_decide as Hin.
  - left. destruct Hin as [c Hc]. rewrite Hc. simpl.
    exists c. split; [by apply reverse_of_get | done].
  - right. split; [|done]. intros c Hc. apply Hin.
    by eapply reverse_of_is_Some.
Qed.

Lemma decode_loop_consumed (table : dict ascii str) (bits : str) :
  forall decoded acc decoded' acc',
    for_each (decode_body (reverse_of table)) bits (decoded, acc)
      = Ok (decoded', acc') ->
    exists s words,
      decoded' = decoded ++ s /\
      Forall2 (fun c w => (c, w) ∈ table /\ w <> []) s words /\
      acc ++ bits = concat words ++ acc'.
Proof.
  induction bits as [|bit bits IH]; intros decoded acc decoded' acc'; simpl.
  - intros [= <- <-]. exists [], []. rewrite !(right_id_L [] (++)).
    split; [done|]. split; [constructor | done].
  - destruct (decode_body_cases table decoded acc bit)
      as [(c & Hc & ->)|(_ & ->)]; simpl; intros H.
    + apply IH in H as (s & words & -> & Hf & Heq).
      exists (c :: s), ((acc ++ [bit]) :: words). split_and!.
      * by rewrite <- (assoc_L (++)).
      * constructor; [|done]. split; [done|]. by apply snoc_nonempty.
      * simpl in Heq. rewrite Heq. simpl. by rewrite <- !(assoc_L (++)).
    + apply IH in H as (s & words & -> & Hf & Heq).
      exists s, words. split_and!; [done|done|].
      rewrite <- Heq. by rewrite <- (assoc_L (++)).
Qed.

Lemma decode_body_eq (rc : dict str ascii) decoded acc bit :
  decode_body rc (decoded, acc) bit =
  match dict_get rc (acc ++ [bit]) with
  | Some c => Ok (decoded ++ [c], [])
  | None => Ok (decoded, acc ++ [bit])
  end.
Proof.
  unfold decode_body, dict_contains, dict_getitem. case_bool_decide as Hin.
  - by destruct Hin as [c ->].
  - destruct (dict_get rc (acc ++ [bit])) as [c|] eqn:E; [|done].
    destruct Hin. eauto.
Qed.

(** The symbols already decoded play no part in the rest of the loop. *)
Lemma decode_loop_shift (table : dict ascii str) (bits : str) :
  forall d0 decoded acc decoded' acc',
    for_each (decode_body (reverse_of table)) bits (decoded, acc)
      = Ok (decoded', acc') ->
    for_each (decode_body (reverse_of table)) bits (d0 ++ decoded, acc)
      = Ok (d0 ++ decoded', acc').
Proof.
  induction bits as [|bit bits IH]; intros d0 decoded acc decoded' acc'; simpl.
  - by intros [= <- <-].
  - rewrite !decode_body_eq.
    destruct (dict_get (reverse_of table) (acc ++ [bit])) as [c|]; simpl.
    + rewrite <- (assoc_L (++)). apply IH.
    + apply IH.
Qed.

(** Once the accumulator is the start of no code word, the loop only
    appends to it. *)
Lemma decode_loop_stuck (table : dict ascii str) : forall rest decoded acc x,
  (forall c w, (c, w) ∈ table -> ~ (acc ++ [x]) `prefix_of` w) ->
  for_each (decode_body (reverse_of table)) (x :: rest) (decoded, acc)
    = Ok (decoded, acc ++ x :: rest).
Proof.
  induction rest as [|y rest IH]; intros decoded acc x Hstuck.
  - simpl. destruct (decode_body_cases table decoded acc x)
      as [(c & Hc & _)|(_ & ->)]; [|done].
    by destruct (Hstuck c _ Hc).
  - change (for_each ?f (x :: ?l) ?st) with (st' ← f st x; for_each f l st').
    destruct (decode_body_cases table decoded acc x)
      as [(c & Hc & _)|(_ & ->)]; [by destruct (Hstuck c _ Hc)|].
    cbn [mbind result_bind]. rewrite IH.
    + by rewrite <- (assoc_L (++)).
    + intros c w Hc Hpre. apply (Hstuck c w Hc).
      etrans; [|exact Hpre]. by apply prefix_app_r.
Qed.

Lemma prefix_snoc_inv (w a : str) (x : ascii) :
  w `prefix_of` a ++ [x] -> w = a ++ [x] \/ w `prefix_of` a.
Proof.
  intros [t Ht]. destruct (decide (t = [])) as [->|Hne].
  - left. by rewrite (right_id_L [] (++)) in Ht.
  - right. destruct (exists_last Hne) as (t' & y & ->).
    rewrite (assoc_L (++)) in Ht. apply app_inj_tail in Ht as [-> _].
    by apply prefix_app_r.
Qed.

(** With a table that leaves no gap and in which no word starts
    another, the accumulator stays the proper start of a word. *)
Lemma decode_loop_leftover (table : dict ascii str) :
  (forall s, binary s ->
     (exists c w, (c, w) ∈ table /\ w `prefix_of` s) \/
     (exists c w, (c, w) ∈ table /\ s `prefix_of` w /\ s <> w)) ->
  (forall c1 w1 c2 w2, (c1, w1) ∈ table -> (c2, w2) ∈ table ->
     w1 `prefix_of` w2 -> w1 = w2) ->
  (exists c w, (c, w) ∈ table /\ [] `prefix_of` w /\ [] <> w) ->
  forall bits decoded acc decoded' acc',
    binary bits -> binary acc ->
    (exists c w, (c, w) ∈ table /\ acc `prefix_of` w /\ acc <> w) ->
    for_each (decode_body (reverse_of table)) bits (decoded, acc)
      = Ok (decoded', acc') ->
    exists c w, (c, w) ∈ table /\ acc' `prefix_of` w /\ acc' <> w.
Proof.
  intros Hcomplete Hpf Hnil.
  induction bits as [|bit bits IH]; intros decoded acc decoded' acc' Hbits Hacc Hstart;
    simpl.
  - by intros [= <- <-].
  - apply Forall_cons in Hbits as [Hbit Hbits].
    destruct (decode_body_cases table decoded acc bit)
      as [(c & Hc & ->)|(Hc & ->)]; simpl; intros H.
    + eapply IH; [done|constructor|exact Hnil|exact H].
    + assert (binary (acc ++ [bit])) as Hbin.
      { apply Forall_app. split; [done|]. by constructor. }
      eapply IH; [done|done| |exact H].
      destruct (Hcomplete _ Hbin) as [(c & w & Hw & Hpre)|Hok]; [|done].
      exfalso. apply prefix_snoc_inv in Hpre as [->|Hpre]; [by apply (Hc c)|].
      destruct Hstart as (c' & w' & Hw' & Hpre' & Hne).
      assert (w = w') as <- by (apply (Hpf c w c' w'); [done..|by etrans]).
      apply Hne. by apply (anti_symm prefix).
Qed.

(** ** Encoding with an arbitrary table *)

Lemma mapM_getitem_cases (table : dict ascii str) (txt : str) :
  (Forall (fun c => c ∈ dict_keys table) txt /\
     exists words, mapM (fun char => dict_getitem table char) txt = Ok words) \/
  (Exists (fun c => c ∉ dict_keys table) txt /\
     mapM (fun char => dict_getitem table char) txt = Raise KeyError).
Proof.
  induction txt as [|c txt IH]; simpl.
  - left. split; [constructor | eauto].
  - destruct (dict_getitem table c) as [w|e] eqn:Hc; simpl.
    + assert (c ∈ dict_keys table) as Hin.
      { apply dict_get_is_Some. unfold dict_getitem in Hc.
        destruct (dict_get table c); [eauto | done]. }
      destruct IH as [(Hall & words & ->)|(Hex & ->)]; simpl.
      * left. split; [by constructor | eauto].
      * right. split; [by right | done].
    + unfold dict_getitem in Hc.
      destruct (dict_get table c) eqn:Hget; [done|]. injection Hc as <-.
      right. split; [|done]. left. by apply dict_get_None.
Qed.

Lemma Zsum_fmap_add {A : Type} (f g : A -> Z) (l : list A) :
  Zsum ((fun x => f x + g x) <$> l) = Zsum (f <$> l) + Zsum (g <$> l).
Proof. unfold Zsum. induction l as [|x l IH]; csimpl; lia. Qed.

Lemma Zsum_fmap_ext {A : Type} (f g : A -> Z) (l : list A) :
  (forall x, x ∈ l -> f x = g x) -> Zsum (f <$> l) = Zsum (g <$> l).
Proof.
  unfold Zsum. induction l as [|x l IH]; intros H; csimpl; [done|].
  rewrite H by left. rewrite IH; [done|]. intros y Hy. apply H. by right.
Qed.

Lemma Zsum_fmap_zero {A : Type} (f : A -> Z) (l : list A) :
  (forall x, x ∈ l -> f x = 0) -> Zsum (f <$> l) = 0.
Proof.
  unfold Zsum. induction l as [|x l IH]; intros H; csimpl; [done|].
  rewrite H by left. rewrite IH; [done|]. intros y Hy. apply H. by right.
Qed.

(** Picking the entry of one key out of a sum over the table. *)
Lemma Zsum_pick (table : dict ascii str) (c : ascii) (w : str) :
  NoDup (dict_keys table) -> dict_get table c = Some w ->
  Zsum ((fun cw => (if decide (c = cw.1) then 1 else 0) * Z.of_nat (length cw.2))
          <$> table) = Z.of_nat (length w).
Proof.
  unfold dict_keys. induction table as [|[k v] table IH]; [done|].
  rewrite fmap_cons. cbn [fst]. intros [Hk Hnd]%NoDup_cons. cbn [dict_get].
  rewrite fmap_cons. unfold Zsum. cbn [foldr fst snd]. fold (Zsum).
  destruct (decide (c = k)) as [->|Hne].
  - intros [= ->]. rewrite Zsum_fmap_zero; [lia|].
    intros [k' v'] Hin. cbn [fst snd]. rewrite decide_False; [done|].
    intros <-. apply Hk. apply list_elem_of_fmap. by exists (k, v').
  - intros Hc. fold (Zsum ((fun cw : ascii * str =>
      (if decide (c = cw.1) then 1 else 0) * Z.of_nat (length cw.2)) <$> table)).
    rewrite IH by done. lia.
Qed.

(** The length of the concatenated code words of a text, by symbol. *)
Lemma concat_words_length (table : dict ascii str) (txt : str) (words : list str) :
  NoDup (dict_keys table) ->
  Forall2 (fun c w => dict_get table c = Some w) txt words ->
  Z.of_nat (length (concat words))
  = Zsum ((fun cw => occurrences cw.1 txt * Z.of_nat (length cw.2)) <$> table).
Proof.
  intros Hnd. induction 1 as [|c w txt words Hc Hf IH].
  - rewrite Zsum_fmap_zero; [done|]. intros [k v] _. done.
  - simpl. rewrite length_app, Nat2Z.inj_add, IH.
    rewrite <- (Zsum_pick table c w Hnd Hc), <- Zsum_fmap_add.
    apply Zsum_fmap_ext. intros [k v] _. cbn [fst snd].
    rewrite occurrences_cons. lia.
Qed.

(** ** The split point outside the list *)

Lemma py_index_out {A : Type} (l : list A) (i : Z) :
  Z.of_nat (length l) <= i -> py_index l i = Raise IndexError.
Proof.
  intros Hi. unfold py_index. rewrite (decide_False (P := i < 0)) by lia.
  by rewrite decide_False by lia.
Qed.

Lemma med_loop_out probs total_sum (n : nat) : forall lo e st,
  Z.to_nat (e - lo) = n -> 0 <= lo -> lo < e -> Z.of_nat (length probs) < e ->
  for_each (med_body probs total_sum) (range lo e) st = Raise IndexError.
Proof.
  induction n as [|n IH]; intros lo e st Hn Hlo Hlt He; [lia|].
  rewrite range_cons by lia. simpl.
  destruct (decide (lo < Z.of_nat (length probs))) as [Hin|Hout].
  - destruct (med_body_Ok probs total_sum st lo) as (st1 & -> & _); [lia|].
    simpl. apply IH; lia.
  - destruct st as [[left_sum min_diff] best_m]. unfold med_body.
    by rewrite py_index_out by lia.
Qed.

(** ** Histograms *)

Lemma histogram_get {K : Type} `{EqDecision K} (l : list K) :
  forall (d : dict K Z) (k : K),
    default 0 (dict_get
      (fold_left (fun d x => dict_set d x (default 0 (dict_get d x) + 1)) l d) k)
    = default 0 (dict_get d k) + Z.of_nat (length (filter (fun x => x = k) l)).
Proof.
  induction l as [|x l IH]; intros d k; simpl; [lia|].
  rewrite IH. rewrite filter_cons. destruct (decide (x = k)) as [->|Hne].
  - rewrite dict_get_set_eq. simpl. lia.
  - by rewrite dict_get_set_ne by done.
Qed.

Lemma histogram_keys {K : Type} `{EqDecision K} (l : list K) :
  forall (d : dict K Z) (k : K),
    k ∈ dict_keys
      (fold_left (fun d x => dict_set d x (default 0 (dict_get d x) + 1)) l d)
    <-> k ∈ dict_keys d \/ k ∈ l.
Proof.
  induction l as [|x l IH]; intros d k; simpl.
  - rewrite elem_of_nil. tauto.
  - rewrite IH, elem_of_dict_keys_set, elem_of_cons. split; [|tauto].
    intros [[->|?]|?]; tauto.
Qed.

Lemma histogram_NoDup {K : Type} `{EqDecision K} (l : list K) :
  forall (d : dict K Z),
    NoDup (dict_keys d) ->
    NoDup (dict_keys
      (fold_left (fun d x => dict_set d x (default 0 (dict_get d x) + 1)) l d)).
Proof.
  induction l as [|x l IH]; intros d Hnd; simpl; [done|].
  apply IH. by apply NoDup_dict_keys_set.
Qed.

Lemma histogram_total {K : Type} `{EqDecision K} (l : list K) :
  forall (d : dict K Z),
    Zsum (fold_left (fun d x => dict_set d x (default 0 (dict_get d x) + 1)) l d).*2
    = Zsum d.*2 + Z.of_nat (length l).
Proof.
  assert (forall (d : dict K Z) x,
            Zsum (dict_set d x (default 0 (dict_get d x) + 1)).*2 = Zsum d.*2 + 1)
    as Hstep.
  { unfold Zsum. induction d as [|[k v] d IHd]; intros x; simpl; [done|].
    destruct (decide (x = k)) as [->|Hne]; csimpl; [lia|].
    rewrite IHd. lia. }
  induction l as [|x l IH]; intros d; simpl; [lia|].
  rewrite IH, Hstep. lia.
Qed.

Lemma length_dist_eq (codes : dict ascii str) :
  length_dist codes =
  fold_left (fun d x => dict_set d x (default 0 (dict_get d x) + 1))
            ((fun w : str => Z.of_nat (length w)) <$> codes.*2) [].
Proof.
  unfold length_dist. generalize (@nil (Z * Z)).
  induction (codes.*2) as [|w l IH]; intros d; [done|]. csimpl. apply IH.
Qed.

(** X1: on any encoder object [encode] raises [KeyError] exactly when
    some character of [text] has no entry in [codes], and returns a bit
    string exactly when every character has one; it raises nothing
    else. *)
Theorem encode_key_error (self : FanoEncoder) :
  (encode self = Raise KeyError <->
     exists c, c ∈ self.(text) /\ c ∉ dict_keys self.(codes)) /\
  ((exists bits, encode self = Ok bits) <->
     forall c, c ∈ self.(text) -> c ∈ dict_keys self.(codes)).
Proof.
  unfold encode.
  destruct (mapM_getitem_cases self.(codes) self.(text))
    as [(Hall & words & ->)|(Hex & ->)]; simpl.
  - rewrite Forall_forall in Hall. split.
    + split; [done|]. intros (c & Hc & Hn). by destruct (Hn (Hall c Hc)).
    + split; [done | eauto].
  - apply Exists_exists in Hex. split.
    + split; [done|]. done.
    + split; [by intros [bits ?]|]. intros Hall.
      destruct Hex as (c & Hc & Hn). by destruct (Hn (Hall c Hc)).
Qed.

(** X2: the bit string the encoder built from [S] returns for [S] has,
    for each entry of the code table, as many bits as the symbol occurs
    in [S] times the length of its code word, and no others. *)
Theorem encoded_length_by_symbol (S : str) :
  exists self bits,
    __init__ S = Ok self /\ encode self = Ok bits /\
    Z.of_nat (length bits)
    = Zsum ((fun cw => occurrences cw.1 S * Z.of_nat (length cw.2))
              <$> self.(codes)).
Proof.
  destruct (_build_codes_Ok S) as (table & Hinit & Ht).
  destruct (encode_Ok S table
              (fold_left (fun d '(char, prob) => dict_set d char prob)
                         (sort_desc (raw_probs S)) []))
    as (words & Henc & Hwords).
  { intros c Hc. by apply Ht. }
  eexists _, (concat words). split_and!; [exact Hinit | exact Henc |].
  cbn [codes]. apply concat_words_length; [apply Ht | done].
Qed.


(** X13: the decoder of the encoder built from [S] inverts the encoding
    of any text over the symbols of [S], not only that of [S] itself. *)
Theorem decode_inverts_code_words (S s : str) :
  (forall c, c ∈ s -> c ∈ S) ->
  exists self bits,
    __init__ S = Ok self /\
    encode {| text := s; codes := self.(codes);
              probabilities := self.(probabilities) |} = Ok bits /\
    decode self bits = Ok s.
Proof.
  intros Hsub. destruct (_build_codes_Ok S) as (table & Hinit & Ht).
  destruct (encode_Ok s table
              (fold_left (fun d '(char, prob) => dict_set d char prob)
                         (sort_desc (raw_probs S)) []))
    as (words & Henc & Hwords).
  { intros c Hc. by apply Ht, Hsub. }
  eexists _, (concat words). split_and!; [exact Hinit | exact Henc |].
  unfold decode, decode_loop. cbn [codes].
  pose proof (decode_words S table [] Ht s words [] Hwords) as Hdec.
  rewrite (right_id_L [] (++)) in Hdec. by rewrite Hdec.
Qed.

Lemma decode_inverts_code_words_witness :
  (forall c, c ∈ lit "lol" -> c ∈ lit "Hello, World!") /\
  exists self bits,
    __init__ (lit "Hello, World!") = Ok self /\
    encode {| text := lit "lol"; codes := self.(codes);
              probabilities := self.(probabilities) |} = Ok bits /\
    decode self bits = Ok (lit "lol").
Proof.
  assert (forall c, c ∈ lit "lol" -> c ∈ lit "Hello, World!") as H.
  { apply Forall_forall. by apply (bool_decide_unpack _). }
  split; [exact H | exact (decode_inverts_code_words _ _ H)].
Defined.

(** X5: whatever the bit string and the table (its keys distinct, as
    those of a dictionary are), the input of [decode] splits into the
    bits consumed and the accumulator left over, and the consumed bits
    are exactly the encoding of the decoded text under the same table;
    in particular every decoded symbol is a key of [codes], and there
    are no more of them than bits consumed. *)
Theorem decode_reencodes (self : FanoEncoder) (bits : str) :
  NoDup (dict_keys self.(codes)) ->
  exists decoded acc consumed,
    decode_loop self bits = Ok (decoded, acc) /\
    decode self bits = Ok decoded /\
    bits = consumed ++ acc /\
    encode {| text := decoded; codes := self.(codes);
              probabilities := self.(probabilities) |} = Ok consumed /\
    (length decoded <= length consumed)%nat.
Proof.
  intros Hnd. unfold decode, decode_loop.
  destruct (decode_loop_total self.(codes) bits ([], [])) as ([decoded acc] & Hloop).
  rewrite Hloop.
  apply decode_loop_consumed in Hloop as (s & words & -> & Hf & Heq).
  simpl in Heq. exists s, acc, (concat words). split_and!; [done..| |].
  - unfold encode. cbn [text codes]. apply bind_Ok. exists words.
    split; [|done]. apply mapM_Ok_inv. eapply Forall2_impl; [exact Hf|].
    intros c w [Hc _]. unfold dict_getitem.
    by rewrite (elem_of_dict_get _ _ _ Hnd Hc).
  - simpl. clear Heq. induction Hf as [|c w s words [_ Hw] Hf IH]; [done|].
    simpl. rewrite length_app. destruct w; [done|]. simpl. lia.
Qed.

Lemma decode_reencodes_witness :
  NoDup (dict_keys [("a"%char, lit "0"); ("b"%char, lit "10")]) /\
  exists decoded acc consumed,
    decode_loop {| text := lit "ab";
                   codes := [("a"%char, lit "0"); ("b"%char, lit "10")];
                   probabilities := [] |} (lit "010112")
      = Ok (decoded, acc) /\
    decode {| text := lit "ab";
              codes := [("a"%char, lit "0"); ("b"%char, lit "10")];
              probabilities := [] |} (lit "010112") = Ok decoded /\
    lit "010112" = consumed ++ acc /\
    encode {| text := decoded;
              codes := [("a"%char, lit "0"); ("b"%char, lit "10")];
              probabilities := [] |} = Ok consumed /\
    (length decoded <= length consumed)%nat.
Proof.
  assert (NoDup (dict_keys [("a"%char, lit "0"); ("b"%char, lit "10")])) as H
    by by apply (bool_decide_unpack _).
  split; [exact H|].
  exact (decode_reencodes
           {| text := lit "ab";
              codes := [("a"%char, lit "0"); ("b"%char, lit "10")];
              probabilities := [] |} (lit "010112") H).
Defined.

(** X7: [decode] never resynchronises.  Once the accumulator, with the
    next character [x] of the input, is the start of no code word, no
    further symbol is decoded: the rest of the input only piles up in
    the accumulator and is dropped. *)
Theorem decode_never_resynchronises
    (self : FanoEncoder) (bits rest decoded acc : str) (x : ascii) :
  decode_loop self bits = Ok (decoded, acc) ->
  Forall (fun cw => ~ (acc ++ [x]) `prefix_of` cw.2) self.(codes) ->
  decode_loop self (bits ++ x :: rest) = Ok (decoded, acc ++ x :: rest) /\
  decode self (bits ++ x :: rest) = Ok decoded.
Proof.
  unfold decode, decode_loop. intros Hloop Hstuck.
  rewrite for_each_app, Hloop. cbn [mbind result_bind].
  rewrite decode_loop_stuck; [done|].
  intros c w Hc. rewrite Forall_forall in Hstuck. apply (Hstuck (c, w) Hc).
Qed.

Lemma decode_never_resynchronises_witness :
  (decode_loop {| text := lit "ab";
                  codes := [("a"%char, lit "0"); ("b"%char, lit "10")];
                  probabilities := [] |} (lit "01")
     = Ok (lit "a", lit "1") /\
   Forall (fun cw => ~ (lit "1" ++ ["1"%char]) `prefix_of` cw.2)
          [("a"%char, lit "0"); ("b"%char, lit "10")]) /\
  decode_loop {| text := lit "ab";
                 codes := [("a"%char, lit "0"); ("b"%char, lit "10")];
                 probabilities := [] |} (lit "01" ++ "1"%char :: lit "0100")
    = Ok (lit "a", lit "1" ++ "1"%char :: lit "0100") /\
  decode {| text := lit "ab";
            codes := [("a"%char, lit "0"); ("b"%char, lit "10")];
            probabilities := [] |} (lit "01" ++ "1"%char :: lit "0100")
    = Ok (lit "a").
Proof.
  assert (Forall (fun cw : ascii * str => ~ (lit "1" ++ ["1"%char]) `prefix_of` cw.2)
                 [("a"%char, lit "0"); ("b"%char, lit "10")]) as H
    by by apply (bool_decide_unpack _).
  split; [split; [reflexivity | exact H]|].
  exact (decode_never_resynchronises
           {| text := lit "ab";
              codes := [("a"%char, lit "0"); ("b"%char, lit "10")];
              probabilities := [] |}
           (lit "01") (lit "0100") (lit "a") (lit "1") "1"%char eq_refl H).
Defined.

(** X15: decoding composes at word boundaries: if the accumulator is
    empty after a first part of the input, the decoding of the whole is
    the decoding of the first part followed by that of the rest. *)
Theorem decode_at_word_boundary (self : FanoEncoder) (b1 b2 d1 d2 : str) :
  decode_loop self b1 = Ok (d1, []) ->
  decode self b2 = Ok d2 ->
  decode self (b1 ++ b2) = Ok (d1 ++ d2).
Proof.
  unfold decode, decode_loop. intros H1 H2.
  rewrite for_each_app, H1. cbn [mbind result_bind].
  destruct (for_each _ b2 ([], [])) as [[d acc]|] eqn:Hloop; [|done].
  simpl in H2. injection H2 as ->.
  apply (decode_loop_shift _ _ d1) in Hloop.
  rewrite (right_id_L [] (++)) in Hloop. by rewrite Hloop.
Qed.

Lemma decode_at_word_boundary_witness :
  (decode_loop {| text := lit "ab";
                  codes := [("a"%char, lit "0"); ("b"%char, lit "10")];
                  probabilities := [] |} (lit "010") = Ok (lit "ab", []) /\
   decode {| text := lit "ab";
             codes := [("a"%char, lit "0"); ("b"%char, lit "10")];
             probabilities := [] |} (lit "1001") = Ok (lit "ba")) /\
  decode {| text := lit "ab";
            codes := [("a"%char, lit "0"); ("b"%char, lit "10")];
            probabilities := [] |} (lit "010" ++ lit "1001")
    = Ok (lit "ab" ++ lit "ba").
Proof.
  split; [split; reflexivity|].
  exact (decode_at_word_boundary
           {| text := lit "ab";
              codes := [("a"%char, lit "0"); ("b"%char, lit "10")];
              probabilities := [] |}
           (lit "010") (lit "1001") (lit "ab") (lit "ba") eq_refl eq_refl).
Defined.

(** X11: the bounds of [_med].  For [0 <= b < e] the call returns an
    index of [[b, e - 1]] as long as [e <= len(probs)] (the element at
    [e] itself is never read, so [e = len(probs)] is accepted), and it
    raises [IndexError] as soon as [e] exceeds [len(probs)]. *)
Theorem _med_bounds (probs : list (ascii * float)) (b e : Z) :
  0 <= b -> b < e ->
  (e <= Z.of_nat (length probs) ->
     exists m, _med probs b e = Ok m /\ b <= m < e) /\
  (Z.of_nat (length probs) < e -> _med probs b e = Raise IndexError).
Proof.
  intros Hb Hbe. unfold _med. rewrite decide_False by lia. split.
  - intros He.
    edestruct (med_loop_Ok probs) as (st' & -> & Hst'); [done|exact Hb|exact He|].
    simpl. eexists; split; [done|]. simpl in Hst'. lia.
  - intros He. by erewrite med_loop_out.
Qed.

Lemma _med_bounds_witness :
  (0 <= 0 /\ 0 < 2) /\
  (2 <= Z.of_nat (length [("a"%char, 0.5%float); ("b"%char, 0.5%float)]) ->
     exists m, _med [("a"%char, 0.5%float); ("b"%char, 0.5%float)] 0 2 = Ok m /\
               0 <= m < 2) /\
  (Z.of_nat (length [("a"%char, 0.5%float); ("b"%char, 0.5%float)]) < 2 ->
     _med [("a"%char, 0.5%float); ("b"%char, 0.5%float)] 0 2 = Raise IndexError).
Proof.
  split; [lia|].
  apply (_med_bounds [("a"%char, 0.5%float); ("b"%char, 0.5%float)] 0 2); lia.
Defined.

(** X14: the histogram [length_dist] of [compare_with_ascii] holds, for
    each length, the number of code words of that length; its keys are
    the lengths that occur, each once; and its counts add up to the
    number of entries of the table. *)
Theorem length_dist_counts (table : dict ascii str) :
  (forall L : Z,
     default 0 (dict_get (length_dist table) L)
     = Z.of_nat (length (filter (fun cw => Z.of_nat (length cw.2) = L) table))) /\
  (forall L : Z,
     L ∈ dict_keys (length_dist table)
     <-> exists c w, (c, w) ∈ table /\ Z.of_nat (length w) = L) /\
  NoDup (dict_keys (length_dist table)) /\
  Zsum (length_dist table).*2 = Z.of_nat (length table).
Proof.
  rewrite length_dist_eq. split_and!.
  - intros L. rewrite histogram_get. cbn [dict_get default]. rewrite Z.add_0_l. f_equal.
    induction table as [|[c w] table IH]; [done|].
    csimpl. rewrite (filter_cons (fun x : Z => x = L)).
    rewrite (filter_cons (fun cw : ascii * str => Z.of_nat (length cw.2) = L)).
    cbn [snd]. destruct (decide (Z.of_nat (length w) = L)); simpl; by rewrite IH.
  - intros L. rewrite histogram_keys. unfold dict_keys at 1. simpl.
    rewrite elem_of_nil, list_elem_of_fmap. split.
    + intros [[]|(w & -> & Hw)]. apply list_elem_of_fmap in Hw as ([c w'] & -> & Hin).
      by exists c, w'.
    + intros (c & w & Hin & <-). right. exists w. split; [done|].
      apply list_elem_of_fmap. by exists (c, w).
  - apply histogram_NoDup. constructor.
  - rewrite histogram_total. by rewrite !length_fmap.
Qed.

(** ** The built table and its words *)

Lemma built_encoder (S : str) :
  let ranked := sort_desc (raw_probs S) in
  exists ws,
    __init__ S = Ok {| text := S; codes := zip ranked.*1 ws;
                       probabilities := ranked |} /\
    fano_words (recursion_limit ranked) ranked 0
      (Z.of_nat (length ranked) - 1) [] = Ok ws /\
    length ws = length ranked /\
    length ranked = alphabet_size S /\
    (zip ranked.*1 ws).*1 = ranked.*1 /\
    (zip ranked.*1 ws).*2 = ws /\
    table_for S (zip ranked.*1 ws).
Proof.
  intros ranked. destruct (__init___words S) as (ws & Hinit & Hws & Hlen).
  fold ranked in Hinit, Hws, Hlen.
  exists ws. split_and!; [done..| | | |].
  - apply ranked_length.
  - apply fst_zip. rewrite length_fmap. lia.
  - apply snd_zip. rewrite length_fmap. lia.
  - destruct (_build_codes_Ok S) as (table & Hinit' & Ht).
    rewrite Hinit in Hinit'. by injection Hinit' as ->.
Qed.

Lemma table_for_no_prefix (S : str) (table : dict ascii str) c1 w1 c2 w2 :
  table_for S table ->
  (c1, w1) ∈ table -> (c2, w2) ∈ table -> w1 `prefix_of` w2 -> w1 = w2.
Proof.
  intros (Hnd & _ & _ & Hpf) H1%(elem_of_dict_get _ _ _ Hnd)
    H2%(elem_of_dict_get _ _ _ Hnd) Hpre.
  destruct (decide (c1 = c2)) as [->|Hne]; [congruence|].
  by destruct (Hpf c1 c2 w1 w2).
Qed.

Lemma elem_of_snd_table (table : dict ascii str) (w : str) :
  w ∈ table.*2 <-> exists c, (c, w) ∈ table.
Proof.
  rewrite list_elem_of_fmap. split.
  - intros ([c w'] & -> & Hin). by exists c.
  - intros (c & Hin). by exists (c, w).
Qed.

(** X8: the two tables of a built encoder list the same symbols in the
    same order, that of the ranking: [probabilities] is the ranked list
    itself.  So [self.probabilities[char]] succeeds for every [char] of
    [codes], as the report of [_build_codes] and the average code length
    of [compare_with_ascii] rely on. *)
Theorem tables_share_keys (S : str) :
  exists self ranked,
    __init__ S = Ok self /\ _calculate_probabilities S = Ok ranked /\
    self.(probabilities) = ranked /\
    dict_keys self.(codes) = dict_keys self.(probabilities) /\
    Forall (fun c => exists p, dict_getitem self.(probabilities) c = Ok p)
           (dict_keys self.(codes)).
Proof.
  destruct (built_encoder S) as (ws & Hinit & _ & _ & _ & Hfst & _ & _).
  eexists _, _. split_and!;
    [exact Hinit | apply _calculate_probabilities_Ok | done | exact Hfst |].
  cbn [codes probabilities]. unfold dict_keys at 1. rewrite Hfst.
  apply Forall_forall. intros c Hc.
  apply (dict_get_is_Some (sort_desc (raw_probs S)) c) in Hc as [p Hp].
  exists p. unfold dict_getitem. by rewrite Hp.
Qed.

(** X3: every code word of a built table has at least one bit and at
    most [max 1 (n - 1)] bits, [n] being the number of distinct symbols
    of the input. *)
Theorem code_word_length_bound (S : str) :
  exists self,
    __init__ S = Ok self /\
    forall c w, (c, w) ∈ self.(codes) ->
      (1 <= length w <= Nat.max 1 (alphabet_size S - 1))%nat.
Proof.
  destruct (built_encoder S) as (ws & Hinit & Hws & Hlen & Hn & _ & Hsnd & Ht).
  eexists. split; [exact Hinit|]. cbn [codes]. intros c w Hin. split.
  - destruct Ht as (Hnd & _ & Hne & _).
    destruct (Hne c w (elem_of_dict_get _ _ _ Hnd Hin)) as [Hw _].
    destruct w; [done | simpl; lia].
  - assert (w ∈ ws) as Hw by (rewrite <- Hsnd; apply elem_of_snd_table; eauto).
    assert (0 < length ws)%nat as Hpos.
    { destruct ws; [by apply elem_of_nil in Hw | simpl; lia]. }
    apply fano_words_length in Hws; [|lia..].
    rewrite Forall_forall in Hws. specialize (Hws w Hw). simpl in Hws. lia.
Qed.

Lemma concat_length_bounds (lo hi : nat) (words : list str) :
  Forall (fun w => (lo <= length w <= hi)%nat) words ->
  (length words * lo <= length (concat words) <= length words * hi)%nat.
Proof.
  induction 1 as [|w words Hw _ IH]; simpl; [lia|].
  rewrite length_app. lia.
Qed.

(** X4: the bit string a built encoder returns for its text consists of
    the digits ["0"] and ["1"] only, and has at least one bit and at most
    [max 1 (n - 1)] bits for each symbol of the text. *)
Theorem encoded_stream_bounds (S : str) :
  exists self bits,
    __init__ S = Ok self /\ encode self = Ok bits /\ binary bits /\
    (length S <= length bits
     <= length S * Nat.max 1 (alphabet_size S - 1))%nat.
Proof.
  destruct (built_encoder S) as (ws & Hinit & Hws & Hlen & Hn & _ & Hsnd & Ht).
  set (table := zip (sort_desc (raw_probs S)).*1 ws) in *.
  destruct (encode_Ok S table (sort_desc (raw_probs S)))
    as (words & Henc & Hwords).
  { intros c Hc. by apply Ht. }
  assert (Forall (fun w => binary w /\
            (1 <= length w <= Nat.max 1 (alphabet_size S - 1))%nat) words)
    as Hall.
  { apply Forall_forall. intros w Hw.
    apply list_elem_of_lookup_1 in Hw as [i Hi].
    destruct (Forall2_lookup_r _ _ _ _ _ Hwords Hi) as (c & _ & Hc).
    destruct Ht as (Hnd & _ & Hne & _). destruct (Hne c w Hc) as [Hw0 Hbin].
    split; [done|]. split; [destruct w; [done | simpl; lia]|].
    assert (w ∈ ws) as Hw.
    { rewrite <- Hsnd. apply elem_of_snd_table. exists c.
      by apply dict_get_elem_of. }
    assert (0 < length ws)%nat as Hpos.
    { destruct ws; [by apply elem_of_nil in Hw | simpl; lia]. }
    apply fano_words_length in Hws; [|lia..].
    rewrite Forall_forall in Hws. specialize (Hws w Hw). simpl in Hws. lia. }
  eexists _, (concat words). split_and!; [exact Hinit | exact Henc | | |].
  - apply Forall_concat. eapply Forall_impl; [exact Hall|]. by intros w [? _].
  - rewrite (Forall2_length _ _ _ Hwords).
    pose proof (concat_length_bounds 1 (Nat.max 1 (alphabet_size S - 1)) words)
      as Hb.
    destruct Hb as [Hb1 Hb2]; [|lia].
    eapply Forall_impl; [exact Hall|]. by intros w [_ ?].
  - rewrite (Forall2_length _ _ _ Hwords).
    pose proof (concat_length_bounds 1 (Nat.max 1 (alphabet_size S - 1)) words)
      as Hb.
    destruct Hb as [Hb1 Hb2]; [|lia].
    eapply Forall_impl; [exact Hall|]. by intros w [_ ?].
Qed.

(** X9: with two or more distinct symbols the built code is complete:
    the Kraft sum of the lengths of its words is exactly one, that is,
    scaled by [2^D] for any [D] of at least [n - 1], the terms
    [2^(D - len(code))] add up to [2^D]. *)
Theorem kraft_equality (S : str) (D : Z) :
  (2 <= alphabet_size S)%nat -> Z.of_nat (alphabet_size S) - 1 <= D ->
  exists self,
    __init__ S = Ok self /\
    Zsum ((fun cw => 2 ^ (D - Z.of_nat (length cw.2))) <$> self.(codes)) = 2 ^ D.
Proof.
  intros Hn2 HD.
  destruct (built_encoder S) as (ws & Hinit & Hws & Hlen & Hn & _ & Hsnd & Ht).
  eexists. split; [exact Hinit|]. cbn [codes].
  assert (forall table : dict ascii str,
            (fun cw => 2 ^ (D - Z.of_nat (length cw.2))) <$> table
            = (fun w : str => 2 ^ (D - Z.of_nat (length w))) <$> table.*2) as ->
    by (intros table; by rewrite <- list_fmap_compose).
  rewrite Hsnd.
  assert (0 <= 0) as Hb0 by lia.
  assert (0 <= Z.of_nat (length (sort_desc (raw_probs S))) - 1) as Hbe0 by lia.
  assert (Z.of_nat (length (sort_desc (raw_probs S))) - 1
          < Z.of_nat (length (sort_desc (raw_probs S)))) as He0 by lia.
  rewrite (fano_words_kraft _ _ _ _ _ _ Hb0 Hbe0 He0 Hws);
    [by rewrite Z.sub_0_r | left; lia | simpl; lia].
Qed.

Lemma kraft_equality_witness :
  ((2 <= alphabet_size (lit "Hello, World!"))%nat /\
   Z.of_nat (alphabet_size (lit "Hello, World!")) - 1 <= 9) /\
  exists self,
    __init__ (lit "Hello, World!") = Ok self /\
    Zsum ((fun cw => 2 ^ (9 - Z.of_nat (length cw.2))) <$> self.(codes)) = 2 ^ 9.
Proof.
  assert ((2 <= alphabet_size (lit "Hello, World!"))%nat) as H1
    by (vm_compute; lia).
  assert (Z.of_nat (alphabet_size (lit "Hello, World!")) - 1 <= 9) as H2
    by (vm_compute; discriminate).
  split; [by split|]. exact (kraft_equality _ _ H1 H2).
Defined.

(** X10: the code words of a built table increase with the rank of
    their symbols: of two entries, the word of the one that comes first
    (the more probable one) has ["0"] where the word of the other has
    ["1"], after a common start. *)
Theorem code_words_follow_rank (S : str) :
  exists self,
    __init__ S = Ok self /\
    forall (i j : nat) ci wi cj wj,
      (i < j)%nat ->
      self.(codes) !! i = Some (ci, wi) -> self.(codes) !! j = Some (cj, wj) ->
      exists p s1 s2, wi = p ++ "0"%char :: s1 /\ wj = p ++ "1"%char :: s2.
Proof.
  destruct (built_encoder S) as (ws & Hinit & Hws & Hlen & Hn & _ & Hsnd & Ht).
  eexists. split; [exact Hinit|]. cbn [codes].
  intros i j ci wi cj wj Hij Hi Hj.
  assert (ws !! i = Some wi) as Hwi
    by (rewrite <- Hsnd, list_lookup_fmap; exact (f_equal (fmap snd) Hi)).
  assert (ws !! j = Some wj) as Hwj
    by (rewrite <- Hsnd, list_lookup_fmap; exact (f_equal (fmap snd) Hj)).
  assert (j < length ws)%nat as Hlt by by eapply lookup_lt_Some.
  assert (0 <= 0) as Hb0 by lia.
  assert (0 <= Z.of_nat (length (sort_desc (raw_probs S))) - 1) as Hbe0 by lia.
  assert (Z.of_nat (length (sort_desc (raw_probs S))) - 1
          < Z.of_nat (length (sort_desc (raw_probs S)))) as He0 by lia.
  destruct (fano_words_ordered _ _ _ _ _ _ Hb0 Hbe0 He0 Hws
              i j wi wj Hwi Hwj Hij) as (p & s1 & s2 & -> & ->).
  by exists p, s1, s2.
Qed.

(** X6: with two or more distinct symbols, a stream of binary digits
    never leaves the decoder stuck: what is left in the accumulator at
    the end of the input is the proper start of some code word. *)
Theorem decode_leftover_starts_a_word (S bits : str) :
  (2 <= alphabet_size S)%nat -> binary bits ->
  exists self decoded acc,
    __init__ S = Ok self /\ decode_loop self bits = Ok (decoded, acc) /\
    exists c w, (c, w) ∈ self.(codes) /\ acc `prefix_of` w /\ acc <> w.
Proof.
  intros Hn2 Hbits.
  destruct (built_encoder S) as (ws & Hinit & Hws & Hlen & Hn & _ & Hsnd & Ht).
  set (table := zip (sort_desc (raw_probs S)).*1 ws) in *.
  unfold decode_loop.
  destruct (decode_loop_total table bits ([], [])) as ([decoded acc] & Hloop).
  eexists _, decoded, acc. split; [exact Hinit|]. cbn [codes].
  split; [exact Hloop|].
  assert (forall s, binary s ->
            (exists c w, (c, w) ∈ table /\ w `prefix_of` s) \/
            (exists c w, (c, w) ∈ table /\ s `prefix_of` w /\ s <> w))
    as Hcomplete.
  { intros s Hs.
    assert (0 <= 0) as Hb0 by lia.
    assert (0 <= Z.of_nat (length (sort_desc (raw_probs S))) - 1) as Hbe0 by lia.
    assert (Z.of_nat (length (sort_desc (raw_probs S))) - 1
            < Z.of_nat (length (sort_desc (raw_probs S)))) as He0 by lia.
    assert (0 < Z.of_nat (length (sort_desc (raw_probs S))) - 1
            \/ @nil ascii <> []) as Hlt0 by (left; lia).
    destruct (fano_words_complete _ _ _ _ _ _ Hb0 Hbe0 He0 Hws Hlt0 s Hs)
      as [(w & Hw & Hpre)|(w & Hw & Hpre)];
      rewrite <- Hsnd in Hw; apply elem_of_snd_table in Hw as [c Hc];
      [left | right]; by exists c, w. }
  assert (exists c w, (c, w) ∈ table /\ [] `prefix_of` w /\ [] <> w) as Hnil.
  { destruct (Hcomplete [] ltac:(constructor))
      as [(c & w & Hc & Hpre)|?]; [|done].
    exists c, w. split; [done|]. split; [apply prefix_nil|].
    destruct Ht as (Hnd & _ & Hne & _).
    destruct (Hne c w (elem_of_dict_get _ _ _ Hnd Hc)) as [Hw _]. done. }
  eapply (decode_loop_leftover table Hcomplete); [|exact Hnil|exact Hbits| |exact Hnil|exact Hloop].
  - intros c1 w1 c2 w2. by apply (table_for_no_prefix S).
  - constructor.
Qed.

Lemma decode_leftover_starts_a_word_witness :
  ((2 <= alphabet_size (lit "Hello, World!"))%nat /\ binary (lit "0110100")) /\
  exists self decoded acc,
    __init__ (lit "Hello, World!") = Ok self /\
    decode_loop self (lit "0110100") = Ok (decoded, acc) /\
    exists c w, (c, w) ∈ self.(codes) /\ acc `prefix_of` w /\ acc <> w.
Proof.
  assert ((2 <= alphabet_size (lit "Hello, World!"))%nat) as H1
    by (vm_compute; lia).
  assert (binary (lit "0110100")) as H2 by by apply (bool_decide_unpack _).
  split; [by split|]. exact (decode_leftover_starts_a_word _ _ H1 H2).
Defined.

(** ** The compression ratio *)

Lemma dict_getitem_Some {K V : Type} `{EqDecision K} (d : dict K V) k v :
  dict_get d k = Some v -> dict_getitem d k = Ok v.
Proof. intros H. unfold dict_getitem. by rewrite H. Qed.

Lemma dict_getitem_None {K V : Type} `{EqDecision K} (d : dict K V) k :
  dict_get d k = None -> dict_getitem d k = Raise KeyError.
Proof. intros H. unfold dict_getitem. by rewrite H. Qed.

Lemma avg_terms_cases (codes : dict ascii str) (probabilities : dict ascii float)
    (l : list ascii) :
  (forall c, c ∈ l -> c ∈ dict_keys codes) ->
  (Forall (fun c => c ∈ dict_keys probabilities) l /\
     exists terms,
       mapM (fun char =>
               p ← dict_getitem probabilities char;
               code ← dict_getitem codes char;
               Ok (p * float_of_int (Z.of_nat (length code)))%float) l
       = Ok terms) \/
  (Exists (fun c => c ∉ dict_keys probabilities) l /\
     mapM (fun char =>
             p ← dict_getitem probabilities char;
             code ← dict_getitem codes char;
             Ok (p * float_of_int (Z.of_nat (length code)))%float) l
     = Raise KeyError).
Proof.
  induction l as [|c l IH]; intros Hl; simpl.
  - left. split; [constructor | eauto].
  - destruct (proj2 (dict_get_is_Some codes c)) as [w Hw]; [apply Hl; left|].
    destruct (dict_get probabilities c) as [p|] eqn:Hp.
    + rewrite (dict_getitem_Some probabilities c p Hp). cbn [mbind result_bind].
      rewrite (dict_getitem_Some codes c w Hw). cbn [mbind result_bind].
      assert (c ∈ dict_keys probabilities) as Hin
        by (apply dict_get_is_Some; eauto).
      destruct IH as [(Hall & terms & ->)|(Hex & ->)]; simpl.
      * intros c' Hc'. apply Hl. by right.
      * left. split; [by constructor | eauto].
      * right. split; [by right | done].
    + rewrite (dict_getitem_None probabilities c Hp). cbn [mbind result_bind].
      right. split; [|done]. left. by apply dict_get_None.
Qed.

(** X16: the computation of the compression ratio in
    [compare_with_ascii] raises [KeyError] exactly when some key of
    [codes] is missing from [probabilities]; otherwise it raises
    [ZeroDivisionError] exactly when the text is empty, and returns a
    number exactly when it is not. *)
Theorem compression_ratio_errors (txt encoded : str) (table : dict ascii str)
    (probs : dict ascii float) :
  (compression_ratio txt encoded table probs = Raise KeyError <->
     exists c, c ∈ dict_keys table /\ c ∉ dict_keys probs) /\
  (compression_ratio txt encoded table probs = Raise ZeroDivisionError <->
     (forall c, c ∈ dict_keys table -> c ∈ dict_keys probs) /\ txt = []) /\
  ((exists r, compression_ratio txt encoded table probs = Ok r) <->
     (forall c, c ∈ dict_keys table -> c ∈ dict_keys probs) /\ txt <> []).
Proof.
  unfold compression_ratio.
  destruct (avg_terms_cases table probs (dict_keys table))
    as [(Hall & terms & ->)|(Hex & ->)]; [done| |]; cbn [mbind result_bind].
  - rewrite Forall_forall in Hall. unfold int_truediv.
    destruct (decide (Z.of_nat (length txt) * 8 = 0)) as [H0|H0].
    + assert (txt = []) as -> by (destruct txt; [done | simpl in H0; lia]).
      split_and!; split; try done.
      * intros (c & Hc & Hn). by destruct (Hn (Hall c Hc)).
      * by intros [r ?].
      * by intros [_ ?].
    + assert (txt <> []) as Hne by (intros ->; simpl in H0; lia).
      split_and!; split; try done.
      * intros (c & Hc & Hn). by destruct (Hn (Hall c Hc)).
      * by intros [_ ?].
      * eauto.
  - apply Exists_exists in Hex as (c & Hc & Hn).
    split_and!; split; try done.
    + eauto.
    + intros [Hall _]. by destruct (Hn (Hall c Hc)).
    + by intros [r ?].
    + intros [Hall _]. by destruct (Hn (Hall c Hc)).
Qed.

(** X17: on what a built encoder hands to [compare_with_ascii], as the
    test harness does, the compression ratio raises [ZeroDivisionError]
    exactly for the empty text, although building, encoding and decoding
    the empty text all succeed; for every other text it is computed. *)
Theorem analysis_fails_on_empty_text (S : str) :
  exists self bits,
    __init__ S = Ok self /\ encode self = Ok bits /\
    (compression_ratio S bits self.(codes) self.(probabilities)
       = Raise ZeroDivisionError <-> S = []) /\
    ((exists r, compression_ratio S bits self.(codes) self.(probabilities) = Ok r)
       <-> S <> []).
Proof.
  destruct (built_encoder S) as (ws & Hinit & _ & _ & _ & Hfst & _ & Ht).
  set (table := zip (sort_desc (raw_probs S)).*1 ws) in *.
  destruct (encode_Ok S table (sort_desc (raw_probs S)))
    as (words & Henc & _).
  { intros c Hc. by apply Ht. }
  eexists _, (concat words). split; [exact Hinit|]. split; [exact Henc|].
  cbn [codes probabilities]. unfold compression_ratio.
  destruct (avg_terms_cases table (sort_desc (raw_probs S)) (dict_keys table))
    as [(_ & terms & ->)|(Hex & _)]; [done| |].
  - cbn [mbind result_bind]. unfold int_truediv.
    destruct (decide (Z.of_nat (length S) * 8 = 0)) as [H0|H0].
    + assert (S = []) as HS by (destruct S; [done | simpl in H0; lia]).
      split; split; try done. by intros [r ?].
    + assert (S <> []) as Hne by (intros ->; simpl in H0; lia).
      split; split; try done. eauto.
  - apply Exists_exists in Hex as (c & Hc & Hn). destruct Hn.
    unfold dict_keys in *. by rewrite <- Hfst.
Qed.
